(** * The output canonicaliser and the fixture manager of [suite/testcommon.py]

    A shallow embedding of the parts of the regression-test harness that have
    logic of their own: [fixOutput], [fixSet], [remove_low_confidence] and the
    [Builder] methods [methods], [unpackage_file] and [delete_package].

    Python [str] values are lists of 8-bit characters (code points 0..255,
    where the Unicode class [\d] is exactly [0-9]); [re.split], [str.split],
    [str.replace], [sorted] and the few [os]/[zipfile] calls are modelled
    after CPython 3 (3.7 and later for the treatment of empty matches in
    [re.split]). *)

From Stdlib Require Import Ascii String HexString List Arith Lia.
From stdpp Require Import base list strings gmap sorting.
From Equations Require Import Equations.

Abbreviation str := (list ascii).

(** Python string literals. *)
Definition py (x : string) : str := list_ascii_of_string x.
Arguments py x%_string.

Local Open Scope char_scope.

(** ** Exceptions *)

Inductive exn : Type :=
| TypeError
| IndexError
| FileNotFoundError
| BadZipFile
| AssertionError.

Inductive result (A : Type) : Type :=
| Ok (a : A)
| Raise (e : exn).
Arguments Ok {A} a.
Arguments Raise {A} e.

(** Sequencing: an exception ends the computation. *)
Definition bind {A B} (x : result A) (f : A -> result B) : result B :=
  match x with
  | Ok a => f a
  | Raise e => Raise e
  end.

Notation "'do' x <- c1 ; c2" := (bind c1 (fun x => c2))
  (at level 10, x name, c1 at level 100, c2 at level 200).

Definition is_Ok {A} (x : result A) : bool :=
  match x with Ok _ => true | Raise _ => false end.

(** A value together with the equation that it is that value, for the
    recursive definitions that branch on the result of a call. *)
Definition inspect {A} (a : A) : {b | a = b} := exist _ a eq_refl.

(** ** Builtins on [str] *)

Module Py.

(** [s.startswith(p)] *)
Fixpoint startswith (p s : str) : bool :=
  match p, s with
  | [], _ => true
  | a :: p', b :: s' => Ascii.eqb a b && startswith p' s'
  | _ :: _, [] => false
  end.

(** [s.partition(sub)] without the separator: the text before and after the
    leftmost occurrence of [sub], or [None] when there is none. *)
Fixpoint find (sub s : str) : option (str * str) :=
  if startswith sub s then Some ([], drop (length sub) s)
  else match s with
       | [] => None
       | c :: s' =>
           match find sub s' with
           | Some (a, b) => Some (c :: a, b)
           | None => None
           end
       end.

Lemma startswith_app p s : startswith p s = true -> s = p ++ drop (length p) s.
Proof.
  revert s. induction p as [|a p IH]; intros [|b s] H; simpl in *;
    try reflexivity; try discriminate.
  apply andb_prop in H as [Hab Hp]. apply Ascii.eqb_eq in Hab as ->.
  f_equal. auto.
Qed.

Lemma find_app sub : forall s a b,
  find sub s = Some (a, b) -> s = a ++ sub ++ b.
Proof.
  assert (Hhere : forall s a b,
    (if startswith sub s then Some ([], drop (length sub) s) else None)
      = Some (a, b) -> s = a ++ sub ++ b).
  { intros s a b H. destruct (startswith sub s) eqn:E; [|discriminate].
    injection H as <- <-. now apply startswith_app. }
  induction s as [|c s IH]; intros a b H.
  - apply Hhere. simpl in *. destruct (startswith sub []); [exact H|discriminate].
  - simpl in H. destruct (startswith sub (c :: s)) eqn:E.
    + apply Hhere. now rewrite E.
    + destruct (find sub s) as [[a' b']|]; [|discriminate].
      injection H as <- <-. simpl. f_equal. auto.
Qed.

Lemma find_shorter c w s a b :
  find (c :: w) s = Some (a, b) -> length b < length s.
Proof.
  intros H. apply find_app in H as ->. rewrite !length_app. simpl. lia.
Qed.

(** [s.split(sep)] for a separator that is not empty ([ValueError]
    otherwise; the source only passes the literal [", "]). *)
Equations? py_split (sep s : str) : list str by wf (length s) lt :=
  py_split [] s := [s];
  py_split (c :: w) s with inspect (find (c :: w) s) := {
    | exist _ (Some (a, b)) Heq => a :: py_split (c :: w) b
    | exist _ None _ => [s] }.
Proof. eapply find_shorter; eauto. Qed.

(** [s.replace(old, new)]: every occurrence, leftmost first, none
    overlapping; an empty [old] matches between any two characters. *)
Equations? py_replace (old new s : str) : str by wf (length s) lt :=
  py_replace [] new s := new ++ concat (map (fun c => c :: new) s);
  py_replace (c :: w) new s with inspect (find (c :: w) s) := {
    | exist _ (Some (a, b)) Heq => a ++ new ++ py_replace (c :: w) new b
    | exist _ None _ => s }.
Proof. eapply find_shorter; eauto. Qed.

(** [sub in s] *)
Definition contains (sub s : str) : bool :=
  match find sub s with Some _ => true | None => false end.

(** [sep.join(l)] *)
Fixpoint join (sep : str) (l : list str) : str :=
  match l with
  | [] => []
  | [a] => a
  | a :: l' => a ++ sep ++ join sep l'
  end.

(** [item[-1] == c] for a non-empty string. *)
Definition ends_with (c : ascii) (s : str) : bool :=
  match last s with
  | Some d => Ascii.eqb d c
  | None => false
  end.

(** Strings compare by character code, lexicographically. *)
Definition str_le (a b : str) : Prop :=
  String.le (string_of_list_ascii a) (string_of_list_ascii b).

Global Instance str_le_dec : RelDecision str_le.
Proof. intros a b. unfold str_le. apply _. Defined.

(** [sorted(l)] on a list of strings: a stable merge sort. *)
Definition sorted (l : list str) : list str := merge_sort str_le l.

End Py.

(** ** Regular expressions: a backtracking matcher

    The fragment that the two patterns of the source use.  A character class
    is a predicate; repetition is of a single class and is greedy; the
    look-around assertions are of fixed width.  The matcher is written in
    continuation-passing style, so that a failing continuation makes the
    repetition give characters back, as the backtracking engine does. *)

Module Re.

Inductive regex : Type :=
| Cls (p : ascii -> bool)             (* one character of a class *)
| Cat (r1 r2 : regex)                 (* r1 r2 *)
| Alt (r1 r2 : regex)                 (* r1|r2 *)
| Star (p : ascii -> bool)            (* [p]*, greedy *)
| Behind (w : list (ascii -> bool))   (* (?<=w) *)
| Ahead (w : list (ascii -> bool)).   (* (?=w) *)

Definition Chr (c : ascii) : regex := Cls (Ascii.eqb c).
Definition Plus (p : ascii -> bool) : regex := Cat (Cls p) (Star p).
Definition literal (w : str) : list (ascii -> bool) := map Ascii.eqb w.

(** A position in the subject: the text before it, reversed, and the text
    after it. *)
Definition cont : Type := str -> str -> option (str * str).

Fixpoint classes_match (w : list (ascii -> bool)) (s : str) : bool :=
  match w, s with
  | [], _ => true
  | p :: w', c :: s' => p c && classes_match w' s'
  | _ :: _, [] => false
  end.

Fixpoint star (p : ascii -> bool) (k : cont) (bef aft : str) {struct aft}
  : option (str * str) :=
  match aft with
  | c :: aft' =>
      if p c then
        match star p k (c :: bef) aft' with
        | Some x => Some x
        | None => k bef aft
        end
      else k bef aft
  | [] => k bef aft
  end.

Fixpoint run (r : regex) (k : cont) {struct r} : cont :=
  fun bef aft =>
    match r with
    | Cls p =>
        match aft with
        | c :: aft' => if p c then k (c :: bef) aft' else None
        | [] => None
        end
    | Cat r1 r2 => run r1 (run r2 k) bef aft
    | Alt r1 r2 =>
        match run r1 k bef aft with
        | Some x => Some x
        | None => run r2 k bef aft
        end
    | Star p => star p k bef aft
    | Behind w => if classes_match (rev w) bef then k bef aft else None
    | Ahead w => if classes_match w aft then k bef aft else None
    end.

(** The end of a match.  With [must_advance] (set by [re.split] after an
    empty match) a match that ends where it started is refused, and the
    engine backtracks. *)
Definition accept (must_advance : bool) (start : str) : cont :=
  fun bef aft =>
    if must_advance && (length aft =? length start)%nat then None
    else Some (bef, aft).

(** A match starting at this position: the text that follows it. *)
Definition match_here (r : regex) (must_advance : bool) (bef aft : str)
  : option str :=
  match run r (accept must_advance aft) bef aft with
  | Some (_, rest) => Some rest
  | None => None
  end.

(** The leftmost match at or after this position: the text skipped, the
    text matched and the text that follows. *)
Fixpoint search (r : regex) (must_advance : bool) (bef aft : str)
  {struct aft} : option (str * str * str) :=
  match match_here r must_advance bef aft with
  | Some rest => Some ([], take (length aft - length rest) aft, rest)
  | None =>
      match aft with
      | [] => None
      | c :: aft' =>
          match search r false (c :: bef) aft' with
          | Some (sk, m, rest) => Some (c :: sk, m, rest)
          | None => None
          end
      end
  end.

Definition measure (must_advance : bool) (aft : str) : nat :=
  2 * length aft + (if must_advance then 0 else 1).

(** *** What a match consumes (needed for the termination of [split]) *)

Lemma star_consumes p k bef aft x :
  star p k bef aft = Some x ->
  exists m a', aft = m ++ a' /\ Forall (fun c => p c = true) m
               /\ k (rev m ++ bef) a' = Some x.
Proof.
  revert bef. induction aft as [|c aft IH]; intros bef H; simpl in H.
  - exists [], []. auto.
  - destruct (p c) eqn:Hc; [|exists [], (c :: aft); auto].
    destruct (star p k (c :: bef) aft) as [y|] eqn:Hs.
    + injection H as ->. destruct (IH _ Hs) as (m & a' & -> & Hm & Hk).
      exists (c :: m), a'. simpl. rewrite <- app_assoc. auto.
    + exists [], (c :: aft). auto.
Qed.

Lemma run_consumes r : forall k bef aft x,
  run r k bef aft = Some x ->
  exists m a', aft = m ++ a' /\ k (rev m ++ bef) a' = Some x.
Proof.
  induction r as [p|r1 IH1 r2 IH2|r1 IH1 r2 IH2|p|w|w];
    intros k bef aft x H; simpl in H.
  - destruct aft as [|c aft]; [discriminate|].
    destruct (p c); [|discriminate]. exists [c], aft. auto.
  - destruct (IH1 _ _ _ _ H) as (m1 & a1 & -> & H1).
    destruct (IH2 _ _ _ _ H1) as (m2 & a2 & -> & H2).
    exists (m1 ++ m2), a2. rewrite rev_app_distr, <- !app_assoc. auto.
  - destruct (run r1 k bef aft) as [y|] eqn:E.
    + injection H as ->. eauto.
    + eauto.
  - destruct (star_consumes _ _ _ _ _ H) as (m & a' & ? & _ & ?). eauto.
  - destruct (classes_match (rev w) bef); [|discriminate].
    exists [], aft. auto.
  - destruct (classes_match w aft); [|discriminate].
    exists [], aft. auto.
Qed.

Lemma match_here_consumes r ma bef aft rest :
  match_here r ma bef aft = Some rest ->
  exists m, aft = m ++ rest /\ (ma = true -> m <> []).
Proof.
  unfold match_here. intros H.
  destruct (run r (accept ma aft) bef aft) as [[b a]|] eqn:E; [|discriminate].
  injection H as ->.
  destruct (run_consumes _ _ _ _ _ E) as (m & a' & -> & Hk).
  unfold accept in Hk.
  destruct (ma && (length a' =? length (m ++ a'))%nat) eqn:Hc; [discriminate|].
  injection Hk as _ ->. exists m. split; [reflexivity|].
  intros -> ->. simpl in Hc. rewrite Nat.eqb_refl in Hc. discriminate.
Qed.

Lemma take_matched (m rest : str) :
  take (length (m ++ rest) - length rest) (m ++ rest) = m.
Proof. rewrite length_app, Nat.add_sub. apply take_app_length. Qed.

Lemma search_unfold r ma bef aft :
  search r ma bef aft =
  match match_here r ma bef aft with
  | Some rest => Some ([], take (length aft - length rest) aft, rest)
  | None =>
      match aft with
      | [] => None
      | c :: aft' =>
          match search r false (c :: bef) aft' with
          | Some (sk, m, rest) => Some (c :: sk, m, rest)
          | None => None
          end
      end
  end.
Proof. destruct aft; reflexivity. Qed.

Lemma match_here_take r ma bef aft rest :
  match_here r ma bef aft = Some rest ->
  exists m, aft = m ++ rest /\ take (length aft - length rest) aft = m
            /\ (ma = true -> m <> []).
Proof.
  intros H. destruct (match_here_consumes _ _ _ _ _ H) as (m & Hm & Hne).
  exists m. subst aft. rewrite take_matched. auto.
Qed.

Lemma search_consumes r : forall aft ma bef sk m rest,
  search r ma bef aft = Some (sk, m, rest) ->
  aft = sk ++ m ++ rest /\ (ma = true -> sk = [] -> m <> []).
Proof.
  induction aft as [|c aft IH]; intros ma bef sk m rest H;
    rewrite search_unfold in H;
    (destruct (match_here r ma bef _) as [rest'|] eqn:E;
     [destruct (match_here_take _ _ _ _ _ E) as (m0 & Hm & Ht & Hne);
      rewrite Ht in H; injection H as <- <- <-; split; [exact Hm|auto] |]).
  - discriminate.
  - destruct (search r false (c :: bef) aft) as [[[sk' m'] rest']|] eqn:E';
      [|discriminate].
    injection H as <- <- <-.
    destruct (IH _ _ _ _ _ E') as [-> _].
    split; [reflexivity|]. intros _ [=].
Qed.

Lemma search_measure r ma bef aft sk m rest :
  search r ma bef aft = Some (sk, m, rest) ->
  measure (bool_decide (m = [])) rest < measure ma aft.
Proof.
  intros H. destruct (search_consumes _ _ _ _ _ _ _ H) as [-> Hne].
  unfold measure. rewrite !length_app.
  destruct m as [|c m].
  - rewrite bool_decide_eq_true_2 by reflexivity. simpl.
    destruct sk as [|c sk]; simpl; [|lia].
    destruct ma; [|lia]. exfalso. now apply Hne.
  - rewrite bool_decide_eq_false_2 by discriminate. simpl. lia.
Qed.

(** [re.split] for a pattern that is wholly inside one capturing group: the
    pieces of text between the matches alternate with the matches
    themselves.  After each match the search resumes where the match ended,
    and must advance when the match was empty. *)
Equations? split_loop (r : regex) (ma : bool) (bef aft : str) : list str
  by wf (measure ma aft) lt :=
  split_loop r ma bef aft with inspect (search r ma bef aft) := {
    | exist _ (Some (sk, m, rest)) Heq =>
        sk :: m :: split_loop r (bool_decide (m = []))
                                (rev m ++ rev sk ++ bef) rest
    | exist _ None _ => [aft] }.
Proof. eapply search_measure; eauto. Qed.

Definition split (r : regex) (s : str) : list str := split_loop r false [] s.

End Re.

(** ** The output canonicaliser *)

#[local] Set Warnings "-register-all".

(** The values a test puts in its output list: strings, lists, and any
    other object (a number, [None], ...), which stands for itself. *)
Inductive pyval : Type :=
| PStr (s : str)
| PList (items : list pyval)
| PObj (id : nat).

Definition is_digit (c : ascii) : bool := ("0" <=? c) && (c <=? "9").
Definition is_lower_hex (c : ascii) : bool :=
  is_digit c || (("a" <=? c) && (c <=? "f")).
Definition bracket_or_space (c : ascii) : bool :=
  Ascii.eqb c "[" || Ascii.eqb c " ".
Definition not_newline (c : ascii) : bool := negb (Ascii.eqb c "010").

(** [r"((?<=[\[ ])0x[\da-f]+L|[\d]+L)"]: the alternation is the outermost
    operator inside the group, so the look-behind belongs to the first
    alternative only. *)
Definition long_re : Re.regex :=
  Re.Alt
    (Re.Cat (Re.Behind [bracket_or_space])
       (Re.Cat (Re.Chr "0") (Re.Cat (Re.Chr "x")
          (Re.Cat (Re.Plus is_lower_hex) (Re.Chr "L")))))
    (Re.Cat (Re.Plus is_digit) (Re.Chr "L")).

Definition set_open : str := py "<in set([".
Definition set_close : str := py "])>".

(** [r"((?<=<in set\(\[).*(?=\]\)>))"] *)
Definition set_re : Re.regex :=
  Re.Cat (Re.Behind (Re.literal set_open))
    (Re.Cat (Re.Star not_newline) (Re.Ahead (Re.literal set_close))).

(** [item[:-1] if len(item) > 1 and item[-1] == 'L' else item] on a string. *)
Definition strip_L (item : str) : str :=
  if (1 <? length item)%nat && Py.ends_with "L" item then removelast item
  else item.

(** The same test on an arbitrary item.  A list has a length and a last
    element, which equals ['L'] only if it is that string; a number or [None]
    has no length and raises [TypeError] in [len]. *)
Definition strip_L_item (item : pyval) : result pyval :=
  match item with
  | PStr s => Ok (PStr (strip_L s))
  | PList l =>
      Ok (PList (if (1 <? length l)%nat
                    && match last l with
                       | Some (PStr s) => bool_decide (s = ["L"])
                       | _ => false
                       end
                 then removelast l else l))
  | PObj _ => Raise TypeError
  end.

Definition as_str (v : pyval) : result str :=
  match v with
  | PStr s => Ok s
  | _ => Raise TypeError
  end.

Fixpoint traverse {A B} (f : A -> result B) (l : list A) : result (list B) :=
  match l with
  | [] => Ok []
  | a :: l' => do b <- f a; do bs <- traverse f l'; Ok (b :: bs)
  end.

(** [''.join(items)]: [TypeError] unless every item is a string. *)
Definition join_empty (items : list pyval) : result pyval :=
  do ss <- traverse as_str items; Ok (PStr (concat ss)).

(** The first loop of [fixOutput]. *)
Definition split_elem (elem : pyval) : pyval :=
  match elem with
  | PStr s => PList (map PStr (Re.split long_re s))
  | _ => elem
  end.

(** The second loop of [fixOutput]: every list is resolved, whether the first
    loop made it or it was in the input. *)
Definition resolve_elem (elem : pyval) : result pyval :=
  match elem with
  | PList items => do newElem <- traverse strip_L_item items; join_empty newElem
  | _ => Ok elem
  end.

Definition fixOutput (outputList : list pyval) : result (list pyval) :=
  let splitList := map split_elem outputList in
  traverse resolve_elem splitList.

Definition index {A} (l : list A) (i : nat) : result A :=
  match l !! i with
  | Some x => Ok x
  | None => Raise IndexError
  end.

Definition fixSet (string : str) : result str :=
  let splitList := Re.split set_re string in
  if (1 <? length splitList)%nat then
    do s0 <- index splitList 0;
    do s1 <- index splitList 1;
    do s2 <- index splitList 2;
    Ok (s0 ++ Py.join (py ", ") (Py.sorted (Py.py_split (py ", ") s1)) ++ s2)
  else Ok string.

Definition low_confidence_types : list str := [py "int32_t"; py "void"].

Definition remove_low_confidence (type_string : str) : str :=
  fold_left (fun type_string lct => Py.py_replace (lct ++ py " ") [] type_string)
            low_confidence_types type_string.

(** ** The Builder: test catalog and fixture manager *)

Module Builder.

(** What [inspect.ismethod] tells about an attribute. *)
Inductive member : Type := Method | Attribute.

Definition ismethod (m : member) : bool :=
  match m with Method => true | Attribute => false end.

(** The attributes of an object, by name, as [dir] sees them. *)
Abbreviation object := (gmap str member).

Definition by_name : relation (str * member) :=
  fun p q => Py.str_le p.1 q.1.

Global Instance by_name_dec : RelDecision by_name.
Proof. intros p q. unfold by_name. apply _. Defined.

(** [inspect.getmembers(obj, predicate)]: the attributes that satisfy the
    predicate, sorted by name. *)
Definition getmembers (obj : object) (predicate : member -> bool)
  : list (str * member) :=
  merge_sort by_name (filter (fun p => predicate p.2 = true) (map_to_list obj)).

Definition methods (self : object) : list str :=
  fold_left
    (fun methodnames p =>
       if Py.startswith (py "test_") p.1 then methodnames ++ [p.1]
       else methodnames)
    (getmembers self ismethod) [].

(** The file system: regular files by path; a zip archive carries the
    names of its members.  Directories are not modelled. *)
Inductive node : Type :=
| File
| Zip (members : list str).

Abbreviation filesystem := (gmap str node).

(** The directory of the harness ([os.path.dirname(__file__)]) and
    [os.path.relpath], which renames a path without changing the file it
    denotes. *)
Record host : Type := { here : str; relpath : str -> str }.

Record builder : Type := { test_store : str }.

(** [os.path.join] of two components (POSIX). *)
Definition path_join (a b : str) : str :=
  if Py.startswith ["/"] b then b
  else if bool_decide (a = []) || Py.ends_with "/" a then a ++ b
  else a ++ "/" :: b.

Definition exists_ (fs : filesystem) (path : str) : bool :=
  bool_decide (is_Some (fs !! path)).

(** [ZipFile.extractall(path=dir)]: every member becomes a file under
    [dir]. *)
Definition extractall (members : list str) (dir : str) (fs : filesystem)
  : filesystem :=
  fold_left (fun fs m => <[path_join dir m := File]> fs) members fs.

Definition target (h : host) (self : builder) (filename : str) : str :=
  path_join (path_join (here h) (test_store self)) filename.

(** [with zipfile.ZipFile(archive, "r") as zf: zf.extractall(path=dir)] *)
Definition extract_archive (archive dir : str) (fs : filesystem)
  : result unit * filesystem :=
  match fs !! archive with
  | None => (Raise FileNotFoundError, fs)
  | Some File => (Raise BadZipFile, fs)
  | Some (Zip members) => (Ok tt, extractall members dir fs)
  end.

Definition unpackage_file (h : host) (self : builder) (filename : str)
    (fs : filesystem) : result str * filesystem :=
  let path := target h self filename in
  let '(extracted, fs) :=
    if negb (exists_ fs path) then extract_archive (path ++ py ".zip") (here h) fs
    else (Ok tt, fs) in
  match extracted with
  | Raise e => (Raise e, fs)
  | Ok _ =>
      if exists_ fs path then (Ok (relpath h path), fs)
      else (Raise AssertionError, fs)
  end.

(** [os.unlink(path)] *)
Definition delete_package (h : host) (self : builder) (filename : str)
    (fs : filesystem) : result unit * filesystem :=
  let path := target h self filename in
  match fs !! path with
  | Some _ => (Ok tt, delete path fs)
  | None => (Raise FileNotFoundError, fs)
  end.

End Builder.

(** ** Tests that use a fixture *)

Module TestBuilder.

(** What a test raises: an exception of the harness, or one of the engine,
    whose exceptions are not examined. *)
Inductive raised (E : Type) : Type :=
| Harness (e : exn)
| Engine (e : E).
Arguments Harness {E} e.
Arguments Engine {E} e.

(** [test_linear_disassembly].  The engine is a parameter: for a file name,
    [str(i)] for every line [i] of
    [binja.BinaryViewType['ELF'].open(file_name).linear_disassembly], or the
    exception that it raises.  The body is in a [try] whose [finally] clause
    deletes the fixture. *)
Definition test_linear_disassembly {E} (h : Builder.host)
    (self : Builder.builder) (linear_disassembly : str -> E + list str)
    (fs : gmap str Builder.node)
  : (raised E + list str) * gmap str Builder.node :=
  let '(unpackaged, fs) := Builder.unpackage_file h self (py "helloworld") fs in
  match unpackaged with
  | Raise e => (inl (Harness e), fs)
  | Ok file_name =>
      let returned :=
        match linear_disassembly file_name with
        | inl e => inl (Engine e)
        | inr disass =>
            inr (fold_left
                   (fun retinfo i => retinfo ++ [remove_low_confidence i])
                   disass [])
        end in
      let '(deleted, fs) := Builder.delete_package h self (py "helloworld") fs in
      match deleted with
      | Raise e => (inl (Harness e), fs)
      | Ok _ => (returned, fs)
      end
  end.

(** [test_deprecated_BinaryViewType].  The engine gives, for a file name, the
    name of every available view type and whether it is deprecated;
    [abspath] is the path that a relative name denotes.  The fixture is
    deleted by a plain call after the loop. *)
Definition test_deprecated_BinaryViewType {E} (h : Builder.host)
    (self : Builder.builder) (abspath : str -> str)
    (available_view_types : str -> E + list (str * bool))
    (fs : gmap str Builder.node)
  : (raised E + list str) * gmap str Builder.node :=
  let '(unpackaged, fs) :=
    Builder.unpackage_file h self (py "fat_macho_9arch.bndb") fs in
  match unpackaged with
  | Raise e => (inl (Harness e), fs)
  | Ok file_name =>
      if negb (Builder.exists_ fs (abspath file_name)) then (inr [py ""], fs)
      else
        match available_view_types file_name with
        | inl e => (inl (Engine e), fs)
        | inr types =>
            let view_types :=
              fold_left
                (fun (view_types : list str) (view_type : str * bool) =>
                   if view_type.2
                   then view_types
                        ++ [py "BinaryViewType: " ++ view_type.1
                            ++ py " (deprecated)"]
                   else view_types ++ [py "BinaryViewType: " ++ view_type.1])
                types [] in
            let '(deleted, fs) :=
              Builder.delete_package h self (py "fat_macho_9arch.bndb") fs in
            match deleted with
            | Raise e => (inl (Harness e), fs)
            | Ok _ => (inr view_types, fs)
            end
        end
  end.

End TestBuilder.

(** ** The files of a sample store *)

Module Walk.

(** A directory: the names of its files, and its subdirectories by name, in
    the order in which the system lists them. *)
Inductive tree : Type :=
| Dir (files : list str) (subdirs : list (str * tree)).

(** [os.walk(top)], top down: the directory, then each subdirectory in
    turn. *)
Fixpoint walk (top : str) (t : tree) : list (str * list str * list str) :=
  match t with
  | Dir files subdirs =>
      (top, map fst subdirs, files)
      :: flat_map (fun d => match d with
                            | (name, sub) => walk (Builder.path_join top name) sub
                            end) subdirs
  end.

(** [get_file_list].  [disk] tells which directory, if any, is at a path;
    [os.walk] yields nothing for a path that cannot be listed. *)
Definition get_file_list (h : Builder.host) (disk : str -> option tree)
    (test_store_rel : str) : list str :=
  let test_store := Builder.path_join (Builder.here h) test_store_rel in
  let walked :=
    match disk test_store with
    | Some t => walk test_store t
    | None => []
    end in
  fold_left
    (fun all_files entry =>
       match entry with
       | (root, _, files) =>
           fold_left (fun all_files file =>
                        all_files ++ [Builder.path_join root file])
                     files all_files
       end)
    walked [].

(** The number of files in a directory and below. *)
Fixpoint count_files (t : tree) : nat :=
  match t with
  | Dir files subdirs =>
      length files
      + list_sum (map (fun d => match d with (_, sub) => count_files sub end)
                      subdirs)
  end.

(** No name, of a file or of a directory, is empty or holds a slash. *)
Definition name_ok (name : str) : bool :=
  negb (bool_decide (name = [])) && negb (existsb (Ascii.eqb "/") name).

Fixpoint names_ok (t : tree) : bool :=
  match t with
  | Dir files subdirs =>
      forallb name_ok files
      && forallb (fun d => match d with
                           | (name, sub) => name_ok name && names_ok sub
                           end) subdirs
  end.

(** The files of a directory and below, by path: those of the directory
    itself, then those of each subdirectory in turn. *)
Fixpoint listing (top : str) (t : tree) : list str :=
  match t with
  | Dir files subdirs =>
      map (Builder.path_join top) files
      ++ flat_map (fun d => match d with
                            | (name, sub) =>
                                listing (Builder.path_join top name) sub
                            end) subdirs
  end.

End Walk.

(** ** Tests on a binary view *)

Module BinaryViewTestBuilder.

(** [hex(x)] for an [x] that is not negative.  Python 2 writes an ['L']
    after the digits of a [long]; [long] tells which values the interpreter
    holds as such, and is false everywhere under Python 3. *)
Definition hex (long : N -> bool) (x : N) : str :=
  py (HexString.of_N x) ++ (if long x then ["L"] else []).

(** [test_function_starts], for the start addresses of [self.bv.functions]. *)
Definition test_function_starts (long : N -> bool) (functions : list N)
  : result (list pyval) :=
  let result :=
    fold_left
      (fun result x => result ++ [PStr (py "Function start: " ++ hex long x)])
      functions [] in
  fixOutput result.

End BinaryViewTestBuilder.

(** ** Text beyond Latin-1 *)

Module Unicode.

(** A Python string as its code points. *)
Definition ustr : Type := list N.

Definition of_str (s : str) : ustr := map N_of_ascii s.

(** [s.replace(old, new)] for an [old] of one code point. *)
Definition replace (old : N) (new : ustr) (s : ustr) : ustr :=
  flat_map (fun c => if N.eqb c old then new else [c]) s.

(** [b"\xe2\x80\xa6".decode("utf8")]: the horizontal ellipsis. *)
Definition ellipsis : N := 0x2026%N.

(** [fixStrRepr]. *)
Definition fixStrRepr (string : ustr) : ustr :=
  replace ellipsis (of_str (py "\xe2\x80\xa6")) string.

End Unicode.

(** ** The vocabulary of the statements *)

(** What [fixOutput] makes of one string. *)
Definition fix_str (s : str) : str :=
  concat (map strip_L (Re.split long_re s)).

(** An element that is not a list. *)
Definition plain (v : pyval) : bool :=
  match v with PList _ => false | _ => true end.

(** What [fixOutput] makes of such an element. *)
Definition fix_elem (v : pyval) : pyval :=
  match v with
  | PStr s => PStr (fix_str s)
  | _ => v
  end.

(** The string holds no ['L']. *)
Definition no_L (s : str) : bool := negb (existsb (Ascii.eqb "L") s).

(** The pieces of text between the matches: the pieces of even index in the
    result of [re.split]. *)
Fixpoint unmatched (pieces : list str) : list str :=
  match pieces with
  | [] => []
  | [t] => [t]
  | t :: _ :: pieces' => t :: unmatched pieces'
  end.

(** Every ['L'] of the string is the suffix of a matched literal. *)
Definition only_suffix_L (s : str) : bool :=
  forallb no_L (unmatched (Re.split long_re s)).

(** An element on which the amended idempotence law is stated. *)
Definition suffixes_only (v : pyval) : bool :=
  match v with
  | PStr s => only_suffix_L s
  | PList _ => false
  | PObj _ => true
  end.

(** The text before the position ends with ['['] or a space. *)
Definition guarded (bef : str) : bool :=
  match bef with
  | c :: _ => bracket_or_space c
  | [] => false
  end.

(** What the pattern can match at a position: digits, or a guarded
    hexadecimal literal, before the ['L']. *)
Definition literal_body (bef x : str) : Prop :=
  x <> [] /\
  (Forall (fun c => is_digit c = true) x
   \/ guarded bef = true
      /\ exists h, x = "0" :: "x" :: h /\ h <> []
                   /\ Forall (fun c => is_lower_hex c = true) h).

(** The text ends with ['['] or a space. *)
Definition after_bracket_or_space (pre : str) : bool :=
  match last pre with
  | Some c => bracket_or_space c
  | None => false
  end.

(** The last character is a decimal digit. *)
Definition ends_in_digit (h : str) : bool :=
  match last h with
  | Some c => is_digit c
  | None => false
  end.

(** A separator whose first character does not occur again in it cannot
    overlap itself. *)
Definition head_unique (sep : str) : Prop :=
  match sep with
  | [] => False
  | c :: w => c ∉ w
  end.

(** The string holds the opening delimiter and, somewhere after it, the
    closing one. *)
Definition set_shape (s : str) : Prop :=
  exists a b c, s = a ++ set_open ++ b ++ set_close ++ c.

(** The same, as a test. *)
Definition has_set_shape (s : str) : bool :=
  match Py.find set_open s with
  | Some (_, r) => Py.contains set_close r
  | None => false
  end.

(** The opening delimiter without its first character. *)
Definition set_open_tail : str := py "in set([".

(** A member that holds no separator, no line break and no opening
    delimiter. *)
Definition plain_member (m : str) : bool :=
  negb (Py.contains (py ", ") m) && forallb not_newline m
  && negb (Py.contains set_open m).

(** The name of a test method. *)
Definition is_test (name : str) : Prop :=
  Py.startswith (py "test_") name = true.

(** A harness installed in [/suite], run from the root directory, with its
    sample store in [store]. *)
Definition suite : Builder.host :=
  {| Builder.here := py "/suite"; Builder.relpath := drop 1 |}.

Definition corpus : Builder.builder :=
  {| Builder.test_store := py "store" |}.

(** The sample store of the end-to-end scenario: no bare file, and an
    archive that holds it. *)
Definition packed : gmap str Builder.node :=
  {[ py "/suite/store/sample.zip" := Builder.Zip [py "store/sample"] ]}.

(** A sample store whose archive holds nothing. *)
Definition hollow : gmap str Builder.node :=
  {[ py "/suite/store/sample.zip" := Builder.Zip [] ]}.

(** A string. *)
Definition is_str (v : pyval) : bool :=
  match v with PStr _ => true | _ => false end.

(** An element that the second loop of [fixOutput] can resolve: anything
    but a list that holds something else than strings. *)
Definition joinable (v : pyval) : bool :=
  match v with
  | PList items => forallb is_str items
  | _ => true
  end.

(** The text of a string item. *)
Definition str_of (v : pyval) : str :=
  match v with PStr s => s | _ => [] end.

(** What [fixOutput] makes of a joinable element. *)
Definition resolved (v : pyval) : pyval :=
  match v with
  | PStr s => PStr (fix_str s)
  | PList items => PStr (concat (map strip_L (map str_of items)))
  | PObj n => PObj n
  end.

(** The line that [test_deprecated_BinaryViewType] writes for a view
    type. *)
Definition view_line (view_type : str * bool) : str :=
  py "BinaryViewType: " ++ view_type.1
  ++ (if view_type.2 then py " (deprecated)" else []).

(** * Properties *)

(** ** Unfolding the recursive definitions *)

Ltac unfold_inspected Heq :=
  simpl; etransitivity; [|rewrite Heq; reflexivity]; reflexivity.

Lemma py_split_unfold c w s :
  Py.py_split (c :: w) s =
  match Py.find (c :: w) s with
  | Some (a, b) => a :: Py.py_split (c :: w) b
  | None => [s]
  end.
Proof.
  simp py_split.
  destruct (inspect (Py.find (c :: w) s)) as [[[a b]|] Heq];
    unfold_inspected Heq.
Qed.

Lemma py_replace_unfold c w new s :
  Py.py_replace (c :: w) new s =
  match Py.find (c :: w) s with
  | Some (a, b) => a ++ new ++ Py.py_replace (c :: w) new b
  | None => s
  end.
Proof.
  simp py_replace.
  destruct (inspect (Py.find (c :: w) s)) as [[[a b]|] Heq];
    unfold_inspected Heq.
Qed.

Lemma split_loop_unfold r ma bef aft :
  Re.split_loop r ma bef aft =
  match Re.search r ma bef aft with
  | Some (sk, m, rest) =>
      sk :: m :: Re.split_loop r (bool_decide (m = []))
                               (rev m ++ rev sk ++ bef) rest
  | None => [aft]
  end.
Proof.
  simp split_loop.
  destruct (inspect (Re.search r ma bef aft)) as [[[[sk m] rest]|] Heq];
    unfold_inspected Heq.
Qed.

(** ** The builtins and the matcher on examples *)

Example split_long_re :
  Re.split long_re (py "[0x10L, 5L] x5L 0xabL a0xabL")
  = [py "["; py "0x10L"; py ", "; py "5L"; py "] x"; py "5L"; py " ";
     py "0xabL"; py " a0xabL"].
Proof. vm_compute. reflexivity. Qed.

(** An empty match splits, and the search then moves on. *)
Example split_set_re_empty :
  Re.split set_re (py "<in set([])>") = [py "<in set(["; py ""; py "])>"].
Proof. vm_compute. reflexivity. Qed.

(** After a match that is not empty, an empty match may follow at once. *)
Example split_set_re_adjacent :
  Re.split set_re (py "<in set([x<in set([])>")
  = [py "<in set(["; py "x<in set(["; py ""; py ""; py "])>"].
Proof. vm_compute. reflexivity. Qed.

(** The dot stops at a line break: two lines, two matches, five pieces, of
    which [fixSet] uses three. *)
Example split_set_re_lines :
  Re.split set_re (py "<in set([b, a])>" ++ "010" :: py "<in set([d, c])>")
  = [py "<in set(["; py "b, a"; py "])>" ++ "010" :: py "<in set([";
     py "d, c"; py "])>"]
  /\ fixSet (py "<in set([b, a])>" ++ "010" :: py "<in set([d, c])>")
     = Ok (py "<in set([a, b])>" ++ "010" :: py "<in set([").
Proof. split; vm_compute; reflexivity. Qed.

Example str_split_replace :
  Py.py_split (py ", ") (py "a, b, , c,") = [py "a"; py "b"; py ""; py "c,"]
  /\ Py.py_split (py ", ") (py "") = [py ""]
  /\ Py.py_replace (py "void ") (py "") (py "vovoid id ") = py "void "
  /\ Py.py_replace (py "") (py "-") (py "abc") = py "-a-b-c-".
Proof. repeat split; vm_compute; reflexivity. Qed.

(** A list in the input is joined like the lists that the first loop makes;
    one that holds something else than strings makes the call raise. *)
Example fixOutput_list_element :
  fixOutput [PList [PStr (py "ab"); PStr (py "cdL")]; PObj 5]
  = Ok [PStr (py "abcd"); PObj 5]
  /\ fixOutput [PList [PStr (py "ab"); PObj 5]] = Raise TypeError.
Proof. split; vm_compute; reflexivity. Qed.

(** ** Occurrences of a substring *)

Lemma startswith_self p t : Py.startswith p (p ++ t) = true.
Proof.
  induction p as [|a p IH]; simpl; [reflexivity|].
  now rewrite Ascii.eqb_refl.
Qed.

Lemma startswith_iff p s :
  Py.startswith p s = true <-> exists t, s = p ++ t.
Proof.
  split.
  - intros H. eexists. now apply Py.startswith_app.
  - intros [t ->]. apply startswith_self.
Qed.

Lemma find_unfold sub s :
  Py.find sub s =
  if Py.startswith sub s then Some ([], drop (length sub) s)
  else match s with
       | [] => None
       | c :: s' =>
           match Py.find sub s' with
           | Some (a, b) => Some (c :: a, b)
           | None => None
           end
       end.
Proof. destruct s; reflexivity. Qed.

(** An occurrence is found. *)
Lemma find_occurrence sub a b :
  exists a' b', Py.find sub (a ++ sub ++ b) = Some (a', b').
Proof.
  induction a as [|x a IH]; rewrite find_unfold.
  - simpl. rewrite startswith_self. eauto.
  - destruct (Py.startswith sub _); [eauto|].
    simpl. destruct IH as (a' & b' & ->). eauto.
Qed.

Lemma contains_occurrence sub a b : Py.contains sub (a ++ sub ++ b) = true.
Proof.
  unfold Py.contains. destruct (find_occurrence sub a b) as (a' & b' & ->).
  reflexivity.
Qed.

Lemma contains_iff sub s :
  Py.contains sub s = true <-> exists a b, s = a ++ sub ++ b.
Proof.
  split.
  - unfold Py.contains. destruct (Py.find sub s) as [[a b]|] eqn:E; [|discriminate].
    intros _. exists a, b. now apply Py.find_app.
  - intros (a & b & ->). apply contains_occurrence.
Qed.

Lemma contains_false sub s :
  Py.contains sub s = false <-> forall a b, s <> a ++ sub ++ b.
Proof.
  rewrite <- not_true_iff_false, contains_iff. split.
  - intros H a b E. apply H. eauto.
  - intros H (a & b & E). eapply H. eauto.
Qed.

(** The leftmost occurrence is the one found. *)
Lemma find_leftmost sub : forall a b,
  (forall a1 a2, a = a1 ++ a2 -> a2 <> [] ->
                 Py.startswith sub (a2 ++ sub ++ b) = false) ->
  Py.find sub (a ++ sub ++ b) = Some (a, b).
Proof.
  induction a as [|x a IH]; intros b H; rewrite find_unfold.
  - simpl. rewrite startswith_self. f_equal. f_equal.
    now rewrite drop_app_length.
  - rewrite (H [] (x :: a)) by (reflexivity || discriminate).
    simpl. rewrite IH; [reflexivity|].
    intros a1 a2 -> Hne. apply (H (x :: a1) a2); [reflexivity|assumption].
Qed.

Lemma find_separator sep a b :
  head_unique sep -> Py.contains sep a = false ->
  Py.find sep (a ++ sep ++ b) = Some (a, b).
Proof.
  destruct sep as [|c w]; [intros []|]. intros Hc Ha. simpl in Hc.
  apply find_leftmost. intros a1 a2 -> Hne.
  apply not_true_iff_false. intros Hs.
  apply startswith_iff in Hs as [t Ht].
  rewrite contains_false in Ha.
  destruct a2 as [|x a2]; [congruence|]. simpl in Ht.
  injection Ht as -> Ht.
  apply app_eq_app in Ht as [l [[-> _]|[-> Hl]]].
  - now apply (Ha a1 l).
  - destruct l as [|y l].
    + apply (Ha a1 []). now rewrite !app_nil_r.
    + simpl in Hl. injection Hl as <- _. apply Hc.
      apply elem_of_app. right. left.
Qed.

Lemma find_absent sub s : Py.contains sub s = false -> Py.find sub s = None.
Proof. unfold Py.contains. now destruct (Py.find sub s). Qed.

Lemma py_split_join sep pieces :
  head_unique sep -> pieces <> [] ->
  Forall (fun p => Py.contains sep p = false) pieces ->
  Py.py_split sep (Py.join sep pieces) = pieces.
Proof.
  intros Hsep Hne Hall. destruct sep as [|c w]; [destruct Hsep|].
  induction Hall as [|p pieces Hp Hall IH]; [congruence|].
  rewrite py_split_unfold. destruct pieces as [|q pieces].
  - simpl. now rewrite find_absent.
  - change (Py.join (c :: w) (p :: q :: pieces))
      with (p ++ (c :: w) ++ Py.join (c :: w) (q :: pieces)).
    rewrite find_separator by assumption. f_equal. now apply IH.
Qed.

Lemma py_replace_join sep new pieces :
  head_unique sep ->
  Forall (fun p => Py.contains sep p = false) pieces ->
  Py.py_replace sep new (Py.join sep pieces) = Py.join new pieces.
Proof.
  intros Hsep Hall. destruct sep as [|c w]; [destruct Hsep|].
  induction Hall as [|p pieces Hp Hall IH].
  - simpl. rewrite py_replace_unfold. reflexivity.
  - rewrite py_replace_unfold. destruct pieces as [|q pieces].
    + simpl. now rewrite find_absent.
    + change (Py.join (c :: w) (p :: q :: pieces))
        with (p ++ (c :: w) ++ Py.join (c :: w) (q :: pieces)).
      rewrite find_separator by assumption. rewrite IH. reflexivity.
Qed.

Lemma join_empty_sep (pieces : list str) : Py.join [] pieces = concat pieces.
Proof.
  induction pieces as [|p [|q pieces] IH]; simpl in *;
    [reflexivity|now rewrite app_nil_r|now rewrite IH].
Qed.

Lemma find_first sub : forall s a' b' a b,
  Py.find sub s = Some (a', b') -> s = a ++ sub ++ b -> exists l, a = a' ++ l.
Proof.
  induction s as [|c s IH]; intros a' b' a b Hf Hs; rewrite find_unfold in Hf.
  - destruct (Py.startswith sub []); [|discriminate].
    injection Hf as <- _. eauto.
  - destruct (Py.startswith sub (c :: s)) eqn:E.
    + injection Hf as <- _. eauto.
    + destruct (Py.find sub s) as [[a'' b'']|] eqn:Ef; [|discriminate].
      injection Hf as <- <-. destruct a as [|x a].
      * simpl in Hs. rewrite Hs, startswith_self in E. discriminate.
      * injection Hs as -> Hs. destruct (IH _ _ _ _ eq_refl Hs) as [l ->].
        exists l. reflexivity.
Qed.

(** The text before the leftmost occurrence holds no occurrence. *)
Lemma find_before_free c w s a b :
  Py.find (c :: w) s = Some (a, b) -> Py.contains (c :: w) a = false.
Proof.
  intros Hf. apply contains_false. intros a1 a2 ->.
  pose proof (Py.find_app _ _ _ _ Hf) as Hs.
  rewrite <- !app_assoc in Hs.
  destruct (find_first _ _ _ _ _ _ Hf Hs) as [l E].
  apply (f_equal length) in E. rewrite !length_app in E. simpl in E. lia.
Qed.

(** Every string is, in one way, pieces without the separator joined by the
    separator: the pieces that [split] returns. *)
Lemma py_split_pieces c w : forall (n : nat) (s : str),
  length s <= n ->
  Py.join (c :: w) (Py.py_split (c :: w) s) = s
  /\ Forall (fun p => Py.contains (c :: w) p = false) (Py.py_split (c :: w) s)
  /\ Py.py_split (c :: w) s <> [].
Proof.
  induction n as [|n IH]; intros s Hlen; rewrite py_split_unfold;
    destruct (Py.find (c :: w) s) as [[a b]|] eqn:E;
    try (split; [reflexivity|]; split; [|discriminate];
         repeat constructor; unfold Py.contains; now rewrite E).
  - apply Py.find_app in E. subst s. rewrite !length_app in Hlen.
    simpl in Hlen. lia.
  - pose proof (Py.find_app _ _ _ _ E) as Hs.
    destruct (IH b) as (Hj & Hf & Hne).
    { subst s. rewrite !length_app in Hlen. simpl in Hlen. lia. }
    split; [|split; [|discriminate]].
    + destruct (Py.py_split (c :: w) b) as [|q pieces] eqn:Eb; [congruence|].
      change (Py.join (c :: w) (a :: q :: pieces))
        with (a ++ (c :: w) ++ Py.join (c :: w) (q :: pieces)).
      now rewrite Hj.
    + constructor; [|assumption]. eapply find_before_free. exact E.
Qed.

(** ** remove_low_confidence *)

(** C7. [remove_low_confidence] applies the removals in list order, first
    ["int32_t "] and then ["void "]; each removal is global: a string is, in
    one way, pieces without the token separated by the token, however many,
    and what is left of it is the concatenation of the pieces.  On
    ["int32_t foo void bar"] the result is ["foo bar"]. *)
Theorem remove_low_confidence_global :
  remove_low_confidence (py "int32_t foo void bar") = py "foo bar"
  /\ (forall s,
        remove_low_confidence s =
        Py.py_replace (py "void ") [] (Py.py_replace (py "int32_t ") [] s))
  /\ (forall tok pieces,
        tok ∈ [py "int32_t "; py "void "] ->
        Forall (fun p => Py.contains tok p = false) pieces ->
        Py.py_replace tok [] (Py.join tok pieces) = concat pieces)
  /\ (forall tok s,
        tok ∈ [py "int32_t "; py "void "] ->
        s = Py.join tok (Py.py_split tok s)
        /\ Forall (fun p => Py.contains tok p = false) (Py.py_split tok s)).
Proof.
  split; [reflexivity|]. split; [reflexivity|].
  assert (Hu : forall c w, negb (existsb (Ascii.eqb c) w) = true ->
                          head_unique (c :: w)).
  { intros c w Hb Hin. apply negb_true_iff, not_true_iff_false in Hb.
    apply Hb, existsb_exists. exists c. split; [|apply Ascii.eqb_refl].
    now apply list_elem_of_In. }
  split.
  - intros tok pieces Htok Hall.
    rewrite py_replace_join, join_empty_sep; [reflexivity| |assumption].
    apply elem_of_cons in Htok as [->|Htok]; [now apply Hu|].
    apply elem_of_cons in Htok as [->|Htok]; [now apply Hu|].
    now apply elem_of_nil in Htok.
  - intros tok s Htok.
    assert (Hc : exists c w, tok = c :: w).
    { apply elem_of_cons in Htok as [->|Htok]; [vm_compute; eauto|].
      apply elem_of_cons in Htok as [->|Htok]; [vm_compute; eauto|].
      now apply elem_of_nil in Htok. }
    destruct Hc as (c & w & ->).
    destruct (py_split_pieces c w (length s) s (le_n _)) as (Hj & Hf & _).
    auto.
Qed.

Lemma remove_low_confidence_global_witness :
  Py.py_replace (py "void ") [] (Py.join (py "void ") [py "a"; py "b"; py "c"])
  = py "abc"
  /\ py "void *f(void )"
     = Py.join (py "void ") (Py.py_split (py "void ") (py "void *f(void )")).
Proof.
  split.
  - apply (proj1 (proj2 (proj2 remove_low_confidence_global)) (py "void ")
             [py "a"; py "b"; py "c"]).
    + apply elem_of_cons. right. apply elem_of_cons. left. reflexivity.
    + repeat constructor.
  - apply (proj2 (proj2 (proj2 remove_low_confidence_global)) (py "void ")
             (py "void *f(void )")).
    apply elem_of_cons. right. apply elem_of_cons. left. reflexivity.
Defined.

(** ** The order on strings *)

Lemma string_of_list_ascii_inj (a b : str) :
  string_of_list_ascii a = string_of_list_ascii b -> a = b.
Proof.
  intros H. apply (f_equal list_ascii_of_string) in H.
  now rewrite !list_ascii_of_string_of_list_ascii in H.
Qed.

Global Instance str_le_trans : Transitive Py.str_le.
Proof. intros a b c. unfold Py.str_le. apply transitivity. Qed.

Global Instance str_le_total : Total Py.str_le.
Proof. intros a b. unfold Py.str_le. apply total, _. Qed.

Global Instance str_le_antisymm : AntiSymm (=) Py.str_le.
Proof.
  intros a b Hab Hba. apply string_of_list_ascii_inj.
  now apply (anti_symm String.le).
Qed.

Lemma StronglySorted_filter {A} (R : relation A) (P : A -> Prop)
    `{forall x, Decision (P x)} (l : list A) :
  StronglySorted R l -> StronglySorted R (filter P l).
Proof.
  induction 1 as [|x l Hl IH Hx]; [constructor|].
  rewrite filter_cons. destruct (decide (P x)); [|assumption].
  constructor; [assumption|].
  apply Forall_forall. intros y Hy. apply list_elem_of_filter in Hy as [_ Hy].
  rewrite Forall_forall in Hx. auto.
Qed.

Lemma NoDup_fst_filter {A B} (P : A * B -> Prop)
    `{forall x, Decision (P x)} (l : list (A * B)) :
  NoDup (l.*1) -> NoDup ((filter P l).*1).
Proof.
  induction l as [|x l IH]; [constructor|].
  rewrite fmap_cons, filter_cons. intros Hn.
  apply NoDup_cons in Hn as [Hnot Hn].
  destruct (decide (P x)); [|auto].
  rewrite fmap_cons. apply NoDup_cons. split; [|auto].
  intros Hin. apply Hnot.
  apply list_elem_of_fmap in Hin as (y & -> & Hy).
  apply list_elem_of_filter in Hy as [_ Hy].
  apply list_elem_of_fmap. eauto.
Qed.

(** Two sorted lists without duplicates that hold the same strings are the
    same list. *)
Lemma sorted_names_unique (l1 l2 : list str) :
  StronglySorted Py.str_le l1 -> StronglySorted Py.str_le l2 ->
  NoDup l1 -> NoDup l2 -> (forall x, x ∈ l1 <-> x ∈ l2) -> l1 = l2.
Proof.
  intros S1 S2 N1 N2 H. apply (StronglySorted_unique Py.str_le); auto.
  now apply NoDup_Permutation.
Qed.

(** ** The test catalog *)

Module BuilderFacts.
Import Builder.

Lemma methods_loop (l : list (str * member)) (acc : list str) :
  fold_left
    (fun methodnames p =>
       if Py.startswith (py "test_") p.1 then methodnames ++ [p.1]
       else methodnames) l acc
  = acc ++ filter is_test (l.*1).
Proof.
  revert acc. induction l as [|p l IH]; intros acc.
  - simpl. now rewrite app_nil_r.
  - cbn [fold_left]. rewrite IH. rewrite fmap_cons, filter_cons.
    unfold is_test at 2.
    destruct (decide (Py.startswith (py "test_") p.1 = true)) as [E|E].
    + rewrite E. now rewrite <- app_assoc.
    + apply not_true_is_false in E. now rewrite E.
Qed.

Lemma methods_filter (self : object) :
  methods self = filter is_test ((getmembers self ismethod).*1).
Proof. unfold methods. now rewrite methods_loop. Qed.

Lemma getmembers_perm (self : object) pred :
  getmembers self pred
  ≡ₚ filter (fun p => pred p.2 = true) (map_to_list self).
Proof. apply merge_sort_Permutation. Qed.

Global Instance by_name_trans : Transitive by_name.
Proof. intros p q r. unfold by_name. apply transitivity. Qed.

Global Instance by_name_total : Total by_name.
Proof. intros p q. unfold by_name. apply total, _. Qed.

Lemma elem_of_methods (self : object) (name : str) :
  name ∈ methods self <->
  self !! name = Some Method /\ Py.startswith (py "test_") name = true.
Proof.
  rewrite methods_filter, list_elem_of_filter, list_elem_of_fmap.
  unfold is_test. split.
  - intros [Ht ([n m] & -> & Hin)]. split; [|exact Ht].
    rewrite getmembers_perm in Hin.
    apply list_elem_of_filter in Hin as [Hm Hin].
    apply elem_of_map_to_list in Hin. simpl in *.
    destruct m; [assumption|discriminate].
  - intros [Hl Ht]. split; [exact Ht|].
    exists (name, Method). split; [reflexivity|].
    rewrite getmembers_perm. apply list_elem_of_filter. split; [reflexivity|].
    now apply elem_of_map_to_list.
Qed.

Lemma NoDup_methods (self : object) : NoDup (methods self).
Proof.
  rewrite methods_filter. apply NoDup_filter.
  rewrite getmembers_perm.
  apply NoDup_fst_filter, (NoDup_fst_map_to_list self).
Qed.

Lemma sorted_methods (self : object) :
  StronglySorted Py.str_le (methods self).
Proof.
  rewrite methods_filter. apply StronglySorted_filter.
  apply (StronglySorted_fmap _ by_name); [auto|].
  apply StronglySorted_merge_sort; apply _.
Qed.

End BuilderFacts.

(** C6. The catalog holds exactly the names of the methods of the object
    that begin with ["test_"], each once, in increasing order of name; so two
    objects with the same test methods give the same list, whatever else they
    hold.  An object with methods [test_a], [test_b] and [helper_c] gives
    [test_a], [test_b]. *)
Theorem methods_catalog :
  (forall (self : gmap str Builder.member) (name : str),
      name ∈ Builder.methods self <->
      self !! name = Some Builder.Method
      /\ Py.startswith (py "test_") name = true)
  /\ (forall self : gmap str Builder.member, NoDup (Builder.methods self))
  /\ (forall self : gmap str Builder.member,
         StronglySorted Py.str_le (Builder.methods self))
  /\ (forall self1 self2 : gmap str Builder.member,
         (forall name, Py.startswith (py "test_") name = true ->
            (self1 !! name = Some Builder.Method
             <-> self2 !! name = Some Builder.Method)) ->
         Builder.methods self1 = Builder.methods self2)
  /\ Builder.methods
       (<[py "test_b" := Builder.Method]>
          (<[py "helper_c" := Builder.Method]>
             (<[py "test_a" := Builder.Method]> ∅)))
     = [py "test_a"; py "test_b"].
Proof.
  split; [exact BuilderFacts.elem_of_methods|].
  split; [exact BuilderFacts.NoDup_methods|].
  split; [exact BuilderFacts.sorted_methods|].
  split; [|vm_compute; reflexivity].
  intros self1 self2 H.
  apply sorted_names_unique;
    auto using BuilderFacts.sorted_methods, BuilderFacts.NoDup_methods.
  intros x. rewrite !BuilderFacts.elem_of_methods.
  split; intros [Hm Ht]; (split; [|exact Ht]); now apply (H x Ht).
Qed.

Lemma methods_catalog_witness :
  Builder.methods (<[py "test_a" := Builder.Method]> ∅)
  = Builder.methods
      (<[py "setup" := Builder.Attribute]>
         (<[py "test_a" := Builder.Method]> ∅)).
Proof.
  apply (proj1 (proj2 (proj2 (proj2 methods_catalog)))).
  intros name Ht.
  destruct (decide (name = py "test_a")) as [->|Hne].
  - split; intros _; reflexivity.
  - rewrite lookup_insert_ne by congruence.
    rewrite lookup_insert_ne; [|intros <-; discriminate].
    rewrite lookup_insert_ne by congruence. reflexivity.
Defined.

(** ** The fixture manager *)

Module FixtureFacts.
Import Builder.

Lemma exists_true (fs : filesystem) path :
  exists_ fs path = true <-> is_Some (fs !! path).
Proof. unfold exists_. apply bool_decide_eq_true. Qed.

Lemma exists_false (fs : filesystem) path :
  exists_ fs path = false <-> fs !! path = None.
Proof.
  unfold exists_. rewrite bool_decide_eq_false. symmetry. apply eq_None_not_Some.
Qed.

(** What is on disk after the extraction of an archive. *)
Lemma extractall_lookup (members : list str) (dir : str) :
  forall (fs : filesystem) (p : str),
  extractall members dir fs !! p =
  if decide (p ∈ map (path_join dir) members) then Some File else fs !! p.
Proof.
  unfold extractall.
  induction members as [|m members IH]; intros fs p; simpl.
  - destruct (decide (p ∈ [])) as [H|H]; [now apply elem_of_nil in H|reflexivity].
  - rewrite IH.
    destruct (decide (p ∈ map (path_join dir) members)) as [H|H].
    + rewrite decide_True by (now right). reflexivity.
    + destruct (decide (p = path_join dir m)) as [->|Hne].
      * rewrite decide_True by left. apply lookup_insert_eq.
      * rewrite decide_False by (intros Hin; apply elem_of_cons in Hin; tauto).
        now apply lookup_insert_ne.
Qed.

Lemma exists_extractall (members : list str) (dir : str)
    (fs : filesystem) (p : str) :
  exists_ (extractall members dir fs) p =
  exists_ fs p || bool_decide (p ∈ map (path_join dir) members).
Proof.
  unfold exists_. rewrite extractall_lookup.
  destruct (decide (p ∈ map (path_join dir) members)) as [H|H].
  - rewrite (bool_decide_eq_true_2 _ H), orb_true_r.
    apply bool_decide_eq_true. eauto.
  - rewrite (bool_decide_eq_false_2 _ H), orb_false_r. reflexivity.
Qed.

End FixtureFacts.






(** ** fixOutput, element by element *)

Lemma traverse_strip (l : list str) :
  traverse strip_L_item (map PStr l) = Ok (map PStr (map strip_L l)).
Proof. induction l as [|s l IH]; simpl; [reflexivity|]. now rewrite IH. Qed.

Lemma join_empty_strs (l : list str) :
  join_empty (map PStr l) = Ok (PStr (concat l)).
Proof.
  unfold join_empty.
  assert (H : traverse as_str (map PStr l) = Ok l)
    by (induction l as [|s l IH]; simpl; [reflexivity|now rewrite IH]).
  now rewrite H.
Qed.

Lemma resolve_split (s : str) :
  resolve_elem (split_elem (PStr s)) = Ok (PStr (fix_str s)).
Proof.
  unfold split_elem, resolve_elem. rewrite traverse_strip. simpl.
  apply join_empty_strs.
Qed.

Lemma fixOutput_cons (v : pyval) (l : list pyval) :
  fixOutput (v :: l) =
  (do w <- resolve_elem (split_elem v); do ws <- fixOutput l; Ok (w :: ws)).
Proof. reflexivity. Qed.

(** A string element of the input is replaced, in place, by [fix_str] of
    it. *)
Lemma fixOutput_lookup_str : forall (S R : list pyval) (i : nat) (s : str),
  fixOutput S = Ok R -> S !! i = Some (PStr s) -> R !! i = Some (PStr (fix_str s)).
Proof.
  induction S as [|v S IH]; intros R i s HR Hi; [discriminate|].
  rewrite fixOutput_cons in HR.
  destruct (resolve_elem (split_elem v)) as [w|] eqn:Ew; [|discriminate].
  simpl in HR. destruct (fixOutput S) as [ws|] eqn:Ews; [|discriminate].
  injection HR as <-. destruct i as [|i]; simpl in *.
  - injection Hi as ->. rewrite resolve_split in Ew. congruence.
  - eauto.
Qed.

Lemma fixOutput_plain (S : list pyval) :
  forallb plain S = true -> fixOutput S = Ok (map fix_elem S).
Proof.
  induction S as [|v S IH]; [reflexivity|]. simpl.
  intros [Hv HS]%andb_prop. rewrite fixOutput_cons, (IH HS).
  destruct v as [s| |n]; [|discriminate|reflexivity].
  now rewrite resolve_split.
Qed.

(** C8.  The two examples of the specification hold.  The general sentence
    does not hold on the code: ["ALL"] contains no suffixed literal (the
    pattern matches nowhere, [re.split] returns it whole), and yet
    [fixOutput] takes its last letter away, since the second loop strips the
    final ['L'] of every piece, matched or not. *)
Theorem fixOutput_examples_and_unmatched_L :
  fixOutput [PStr (py "[0x10L, 5L]")] = Ok [PStr (py "[0x10, 5]")]
  /\ fixOutput [PStr (py "no literals here")] = Ok [PStr (py "no literals here")]
  /\ Re.split long_re (py "ALL") = [py "ALL"]
  /\ fixOutput [PStr (py "ALL")] = Ok [PStr (py "AL")].
Proof. repeat split; vm_compute; reflexivity. Qed.

(** C10.  The pattern does not match ["[0xABL"], whose hexadecimal digits are
    upper case: [re.split] returns the string whole.  The final ['L'] goes
    all the same, taken by the second loop of [fixOutput]. *)
Theorem fixOutput_uppercase_hex :
  Re.split long_re (py "[0xABL") = [py "[0xABL"]
  /\ Re.split long_re (py "[0xabL") = [py "["; py "0xabL"; py ""]
  /\ fixOutput [PStr (py "[0xABL")] = Ok [PStr (py "[0xAB")]
  /\ fixOutput [PStr (py "[0xABL]")] = Ok [PStr (py "[0xABL]")].
Proof. repeat split; vm_compute; reflexivity. Qed.



(** C3, as stated, fails: with a second set on the same line the greedy
    match runs to the last closing delimiter, and the two orders of the
    members of the first set give different results. *)
Lemma fixSet_depends_on_order :
  fixSet (py "<in set([b, a])> <in set([c])>")
    = Ok (py "<in set([a])> <in set([c, b])>")
  /\ fixSet (py "<in set([a, b])> <in set([c])>")
    = Ok (py "<in set([a, b])> <in set([c])>")
  /\ fixSet (py "<in set([b, a])> <in set([c])>")
     <> fixSet (py "<in set([a, b])> <in set([c])>").
Proof. repeat split; vm_compute; try reflexivity. discriminate. Qed.

(** ** The matcher: repetition, look-around and search *)

Lemma classes_match_literal (w s : str) :
  Re.classes_match (Re.literal w) s = true <-> exists t, s = w ++ t.
Proof.
  revert s. induction w as [|a w IH]; intros s; simpl.
  - split; eauto.
  - destruct s as [|b s].
    + split; [discriminate|]. intros [t [=]].
    + rewrite andb_true_iff, Ascii.eqb_eq, IH. split.
      * intros [-> [t ->]]. eauto.
      * intros [t [= -> ->]]. eauto.
Qed.

(** The look-behind for a literal word holds when the text before the
    position ends with the word. *)
Lemma behind_literal (w bef : str) :
  Re.classes_match (rev (Re.literal w)) bef = true
  <-> exists u, rev bef = u ++ w.
Proof.
  unfold Re.literal. rewrite <- map_rev. fold (Re.literal (rev w)).
  rewrite classes_match_literal. split.
  - intros [t ->]. exists (rev t). now rewrite rev_app_distr, rev_involutive.
  - intros [u Hu]. exists (rev u).
    rewrite <- (rev_involutive bef), Hu. now rewrite rev_app_distr.
Qed.

(** Greedy repetition fails when the continuation fails after every run of
    characters of the class. *)
Lemma star_fails p k : forall aft bef,
  (forall m1 m2, aft = m1 ++ m2 -> Forall (fun c => p c = true) m1 ->
                 k (rev m1 ++ bef) m2 = None) ->
  Re.star p k bef aft = None.
Proof.
  induction aft as [|c aft IH]; intros bef H; simpl.
  - apply (H [] []); auto.
  - destruct (p c) eqn:Hc; [|apply (H [] (c :: aft)); auto].
    rewrite IH; [apply (H [] (c :: aft)); auto|].
    intros m1 m2 -> Hm. specialize (H (c :: m1) m2 eq_refl).
    simpl in H. rewrite <- app_assoc in H. apply H. now constructor.
Qed.

(** Greedy repetition takes the longest run after which the continuation
    succeeds. *)
Lemma star_longest p k x : forall m rest bef,
  Forall (fun c => p c = true) m ->
  k (rev m ++ bef) rest = Some x ->
  (forall m1 m2, rest = m1 ++ m2 -> m1 <> [] ->
                 Forall (fun c => p c = true) m1 ->
                 k (rev (m ++ m1) ++ bef) m2 = None) ->
  Re.star p k bef (m ++ rest) = Some x.
Proof.
  induction m as [|c m IH]; intros rest bef Hm Hk Hlonger.
  - simpl in *. destruct rest as [|c rest]; [exact Hk|]. simpl.
    destruct (p c) eqn:Hc; [|exact Hk].
    rewrite star_fails; [exact Hk|].
    intros m1 m2 -> Hm1. specialize (Hlonger (c :: m1) m2 eq_refl).
    simpl in Hlonger. rewrite <- app_assoc in Hlonger.
    apply Hlonger; [discriminate|now constructor].
  - apply Forall_cons in Hm as [Hc Hm]. simpl. rewrite Hc.
    rewrite (IH rest (c :: bef)); [reflexivity|assumption| |].
    + simpl in Hk. now rewrite <- app_assoc in Hk.
    + intros m1 m2 E Hne Hm1. specialize (Hlonger m1 m2 E Hne Hm1).
      simpl in Hlonger. now rewrite <- app_assoc in Hlonger.
Qed.

(** Where a search ends, the pattern matches; nowhere before does it. *)
Lemma search_sound r : forall aft ma bef sk m rest,
  Re.search r ma bef aft = Some (sk, m, rest) ->
  aft = sk ++ m ++ rest
  /\ Re.match_here r (ma && bool_decide (sk = [])) (rev sk ++ bef) (m ++ rest)
     = Some rest.
Proof.
  induction aft as [|c aft IH]; intros ma bef sk m rest H;
    rewrite Re.search_unfold in H;
    (destruct (Re.match_here r ma bef _) as [rest'|] eqn:E;
     [destruct (Re.match_here_take _ _ _ _ _ E) as (m0 & Hm & Ht & _);
      rewrite Ht in H; injection H as <- <- <-;
      rewrite andb_true_r; simpl; rewrite <- Hm; auto |]).
  - discriminate.
  - destruct (Re.search r false (c :: bef) aft) as [[[sk' m'] rest']|] eqn:E';
      [|discriminate].
    injection H as <- <- <-.
    destruct (IH _ _ _ _ _ E') as [-> Hm].
    split; [reflexivity|]. simpl in *. rewrite andb_false_r.
    now rewrite <- app_assoc.
Qed.

Lemma search_fails r : forall aft ma bef,
  (forall sk aft', aft = sk ++ aft' ->
     Re.match_here r (ma && bool_decide (sk = [])) (rev sk ++ bef) aft' = None) ->
  Re.search r ma bef aft = None.
Proof.
  induction aft as [|c aft IH]; intros ma bef H; rewrite Re.search_unfold.
  - specialize (H [] [] eq_refl) as H0. simpl in H0.
    rewrite andb_true_r in H0. now rewrite H0.
  - specialize (H [] (c :: aft) eq_refl) as H0. simpl in H0.
    rewrite andb_true_r in H0. rewrite H0.
    rewrite IH; [reflexivity|].
    intros sk aft' ->. specialize (H (c :: sk) aft' eq_refl).
    simpl in *. now rewrite andb_false_r, <- app_assoc in *.
Qed.

Lemma search_leftmost r : forall sk ma bef aft' rest,
  (forall a1 a2, sk = a1 ++ a2 -> a2 <> [] ->
     Re.match_here r (ma && bool_decide (a1 = [])) (rev a1 ++ bef)
                   (a2 ++ aft') = None) ->
  Re.match_here r (ma && bool_decide (sk = [])) (rev sk ++ bef) aft' = Some rest ->
  Re.search r ma bef (sk ++ aft')
  = Some (sk, take (length aft' - length rest) aft', rest).
Proof.
  induction sk as [|c sk IH]; intros ma bef aft' rest Hbefore Hhere;
    rewrite Re.search_unfold.
  - simpl in *. rewrite andb_true_r in Hhere. now rewrite Hhere.
  - specialize (Hbefore [] (c :: sk) eq_refl) as H0. simpl in H0.
    rewrite andb_true_r in H0. simpl. rewrite H0 by discriminate.
    rewrite (IH false (c :: bef) aft' rest); [reflexivity| |].
    + intros a1 a2 -> Hne. specialize (Hbefore (c :: a1) a2 eq_refl Hne).
      simpl in *. now rewrite andb_false_r, <- app_assoc in *.
    + simpl in *. now rewrite andb_false_r, <- app_assoc in *.
Qed.

(** A match somewhere makes the search succeed. *)
Lemma search_finds r sk bef aft' rest :
  Re.match_here r false (rev sk ++ bef) aft' = Some rest ->
  Re.search r false bef (sk ++ aft') <> None.
Proof.
  revert bef. induction sk as [|c sk IH]; intros bef H;
    rewrite Re.search_unfold.
  - simpl in *. now rewrite H.
  - simpl. destruct (Re.match_here r false bef _); [discriminate|].
    specialize (IH (c :: bef)). simpl in H. rewrite <- app_assoc in H.
    specialize (IH H). simpl in IH.
    destruct (Re.search r false (c :: bef) (sk ++ aft')) as [[[? ?] ?]|];
      [discriminate|congruence].
Qed.

(** ** fixSet *)

Lemma has_set_shape_iff s : has_set_shape s = true <-> set_shape s.
Proof.
  unfold has_set_shape, set_shape. split.
  - destruct (Py.find set_open s) as [[a r]|] eqn:E; [|discriminate].
    intros (b & c & ->)%contains_iff. exists a, b, c. now apply Py.find_app.
  - intros (a & b & c & Hs).
    destruct (find_occurrence set_open a (b ++ set_close ++ c)) as (a' & r & E).
    rewrite <- Hs in E. rewrite E.
    destruct (find_first _ _ _ _ _ _ E Hs) as [l ->].
    apply Py.find_app in E. rewrite Hs, <- app_assoc in E.
    apply app_inv_head in E.
    assert (Hr : exists x, r = x ++ b ++ set_close ++ c).
    { apply app_eq_app in E as [l2 [[E1 E2]|[E1 E2]]].
      - rewrite E2. exists (l2 ++ set_open). now rewrite <- app_assoc.
      - apply app_eq_app in E2 as [l3 [[E3 E4]|[E3 E4]]].
        + rewrite E4. eauto.
        + apply (f_equal length) in E1, E3. rewrite !length_app in E1, E3.
          assert (l3 = []) as ->
            by (destruct l3; [reflexivity|rewrite length_cons in E3; lia]).
          exists []. now rewrite E4. }
    destruct Hr as [x ->]. rewrite app_assoc. apply contains_occurrence.
Qed.

Lemma run_set_re (k : Re.cont) (bef aft : str) :
  Re.run set_re k bef aft =
  if Re.classes_match (rev (Re.literal set_open)) bef then
    Re.star not_newline
      (fun b a => if Re.classes_match (Re.literal set_close) a then k b a
                  else None) bef aft
  else None.
Proof. reflexivity. Qed.

(** A match of the set pattern stands right after the opening delimiter and
    right before the closing one. *)
Lemma set_match_inv ma bef aft rest :
  Re.match_here set_re ma bef aft = Some rest ->
  (exists u, rev bef = u ++ set_open)
  /\ (exists t, rest = set_close ++ t)
  /\ exists m, aft = m ++ rest /\ (ma = true -> m <> []).
Proof.
  intros H. split; [|split; [|now apply (Re.match_here_consumes set_re _ bef)]].
  - unfold Re.match_here in H. rewrite run_set_re in H.
    apply behind_literal.
    destruct (Re.classes_match (rev (Re.literal set_open)) bef);
      [reflexivity|discriminate].
  - unfold Re.match_here in H. rewrite run_set_re in H.
    destruct (Re.classes_match (rev (Re.literal set_open)) bef); [|discriminate].
    destruct (Re.star _ _ bef aft) as [[b a]|] eqn:E; [|discriminate].
    injection H as ->.
    apply Re.star_consumes in E as (m & a' & -> & _ & Hk).
    destruct (Re.classes_match (Re.literal set_close) a') eqn:Hc; [|discriminate].
    unfold Re.accept in Hk.
    destruct (ma && _); [discriminate|]. injection Hk as _ ->.
    now apply classes_match_literal.
Qed.

Lemma set_search_shape ma (s : str) sk m rest :
  Re.search set_re ma [] s = Some (sk, m, rest) -> set_shape s.
Proof.
  intros H. apply search_sound in H as [-> H].
  apply set_match_inv in H as ((u & Hu) & (t & ->) & _).
  rewrite app_nil_r, rev_involutive in Hu. subst sk.
  exists u, m, t. now rewrite <- app_assoc.
Qed.

(** C9. A string without the shape [<in set(\[ ... \])>] is returned as it
    is. *)
Theorem fixSet_without_shape (s : str) :
  (forall a b c, s <> a ++ py "<in set([" ++ b ++ py "])>" ++ c) ->
  fixSet s = Ok s.
Proof.
  intros H. unfold fixSet, Re.split. rewrite split_loop_unfold.
  destruct (Re.search set_re false [] s) as [[[sk m] rest]|] eqn:E;
    [|reflexivity].
  apply set_search_shape in E as (a & b & c & E). now apply H in E.
Qed.

Lemma fixSet_without_shape_witness :
  fixSet (py "<in set([b, a]>") = Ok (py "<in set([b, a]>").
Proof.
  apply fixSet_without_shape. intros a b c E.
  assert (H : has_set_shape (py "<in set([b, a]>") = true)
    by (apply has_set_shape_iff; exists a, b, c; exact E).
  vm_compute in H. discriminate.
Defined.

(** *** Occurrences across a join *)

Lemma contains_skip c w (t z : str) :
  c ∉ t -> Py.contains (c :: w) (t ++ z) = Py.contains (c :: w) z.
Proof.
  induction t as [|x t IH]; intros Hc; [reflexivity|].
  apply not_elem_of_cons in Hc as [Hx Hc].
  unfold Py.contains in *. simpl app. rewrite find_unfold.
  assert (E : Py.startswith (c :: w) (x :: t ++ z) = false).
  { simpl. apply andb_false_iff. left. now apply Ascii.eqb_neq. }
  rewrite E. specialize (IH Hc).
  destruct (Py.find (c :: w) (t ++ z)) as [[a b]|]; exact IH.
Qed.

Lemma contains_across (sub m z : str) (d : ascii) :
  d ∉ sub -> Py.contains sub m = false -> Py.contains sub z = false ->
  Py.contains sub (m ++ d :: z) = false.
Proof.
  intros Hd Hm Hz. rewrite contains_false in *. intros a b E.
  apply app_eq_app in E as [l [[-> E]|[-> E]]].
  - symmetry in E. apply app_eq_app in E as [l2 [[-> E]|[-> E]]].
    + now apply (Hm a l2).
    + destruct l2 as [|y l2].
      * apply (Hm a []). now rewrite !app_nil_r.
      * injection E as <- _. apply Hd. apply elem_of_app. right. left.
  - destruct l as [|y l].
    + simpl in E. destruct sub as [|y sub].
      * apply (Hz [] z). reflexivity.
      * injection E as <- _. apply Hd. left.
    + injection E as _ ->. now apply (Hz l b).
Qed.

Lemma contains_join (c d : ascii) (w sep : str) (ms : list str) :
  d ∉ c :: w -> c ∉ sep ->
  Forall (fun m => Py.contains (c :: w) m = false) ms ->
  Py.contains (c :: w) (Py.join (d :: sep) ms) = false.
Proof.
  intros Hd Hc Hall. induction Hall as [|m ms Hm Hall IH]; [reflexivity|].
  destruct ms as [|m2 ms]; [exact Hm|].
  change (Py.join (d :: sep) (m :: m2 :: ms))
    with (m ++ d :: sep ++ Py.join (d :: sep) (m2 :: ms)).
  apply contains_across; [assumption..|].
  now rewrite contains_skip.
Qed.

Lemma Forall_join (P : ascii -> Prop) (sep : str) (ms : list str) :
  Forall P sep -> Forall (Forall P) ms -> Forall P (Py.join sep ms).
Proof.
  intros Hsep Hall. induction Hall as [|m ms Hm Hall IH]; [constructor|].
  destruct ms as [|m2 ms]; [exact Hm|].
  change (Py.join sep (m :: m2 :: ms))
    with (m ++ sep ++ Py.join sep (m2 :: ms)).
  apply Forall_app. split; [assumption|]. apply Forall_app. auto.
Qed.

(** *** One set on its line *)

Lemma ends_with_set_open (pre body u : str) :
  body <> [] -> pre ++ set_open ++ body = u ++ set_open ->
  Py.contains set_open (set_open_tail ++ body) = true.
Proof.
  intros Hne E.
  change set_open with (["<"] ++ set_open_tail) in E at 1.
  rewrite <- app_assoc, (app_assoc pre) in E.
  apply app_eq_app in E as [l [[_ E]|[_ E]]].
  - destruct l as [|x l].
    + rewrite app_nil_l in E. rewrite <- E. reflexivity.
    + apply (f_equal length) in E. rewrite !length_app, length_cons in E.
      destruct body; [congruence|]. rewrite length_cons in E.
      change (length set_open) with 9 in E.
      change (length set_open_tail) with 8 in E. lia.
  - rewrite E. exact (contains_occurrence set_open l []).
Qed.

Lemma no_close_later (suf m1 t : str) :
  Py.contains set_close suf = false -> m1 <> [] ->
  set_close ++ suf <> m1 ++ set_close ++ t.
Proof.
  intros Hsuf Hne E. rewrite contains_false in Hsuf.
  destruct m1 as [|c1 [|c2 [|c3 m1]]]; [congruence|..];
    try (vm_compute in E; congruence).
  change set_close with ["]"; ")"; ">"] in E at 1.
  injection E as _ _ _ E. now apply Hsuf in E.
Qed.

Lemma set_match_behind_fails ma bef aft :
  (forall u, rev bef <> u ++ set_open) ->
  Re.match_here set_re ma bef aft = None.
Proof.
  intros H. destruct (Re.match_here set_re ma bef aft) as [rest|] eqn:E;
    [|reflexivity].
  apply set_match_inv in E as ((u & Hu) & _). now apply H in Hu.
Qed.

Lemma set_match_body ma bef body suf :
  (exists u, rev bef = u ++ set_open) ->
  Forall (fun c => not_newline c = true) body ->
  Py.contains set_close suf = false ->
  (ma = true -> body <> []) ->
  Re.match_here set_re ma bef (body ++ set_close ++ suf)
  = Some (set_close ++ suf).
Proof.
  intros Hbehind Hbody Hsuf Hma. unfold Re.match_here. rewrite run_set_re.
  apply behind_literal in Hbehind. rewrite Hbehind.
  rewrite (star_longest _ _ (rev body ++ bef, set_close ++ suf));
    [reflexivity|assumption| |].
  - rewrite (proj2 (classes_match_literal set_close _)) by eauto.
    unfold Re.accept. destruct ma; [|reflexivity]. rewrite andb_true_l.
    destruct (Nat.eqb_spec (length (set_close ++ suf))
                (length (body ++ set_close ++ suf))) as [E|E]; [|reflexivity].
    rewrite (length_app body) in E. specialize (Hma eq_refl).
    destruct body; [congruence|]. rewrite length_cons in E. lia.
  - intros m1 m2 E Hne _.
    destruct (Re.classes_match (Re.literal set_close) m2) eqn:Hc; [|reflexivity].
    apply classes_match_literal in Hc as [t ->].
    now apply no_close_later in E.
Qed.

Lemma set_split_single (pre body suf : str) :
  Py.contains set_open (pre ++ py "<in set(") = false ->
  Py.contains set_close suf = false ->
  Forall (fun c => not_newline c = true) body ->
  Py.contains set_open (set_open_tail ++ body) = false ->
  Re.split set_re (pre ++ set_open ++ body ++ set_close ++ suf)
  = [pre ++ set_open; body; set_close ++ suf].
Proof.
  intros Hpre Hsuf Hbody Hopen. unfold Re.split.
  rewrite split_loop_unfold, app_assoc.
  rewrite (search_leftmost set_re (pre ++ set_open) false []
             (body ++ set_close ++ suf) (set_close ++ suf)).
  - rewrite Re.take_matched. f_equal. f_equal.
    rewrite split_loop_unfold, search_fails; [reflexivity|].
    intros sk aft' E.
    destruct (Re.match_here set_re _ _ aft') as [rest|] eqn:Em; [|reflexivity].
    exfalso.
    apply set_match_inv in Em as ((u & Hu) & (t & ->) & (m & -> & Hm)).
    destruct (decide (sk ++ m = [])) as [Hnil|Hnil].
    + apply app_eq_nil in Hnil as [-> ->]. simpl in Hu, Hm.
      rewrite app_nil_r in Hu.
      rewrite !rev_app_distr, !rev_involutive in Hu.
      destruct body as [|c body].
      * rewrite bool_decide_eq_true_2 in Hm by reflexivity. now apply Hm.
      * rewrite <- app_assoc in Hu.
        apply ends_with_set_open in Hu; [congruence|discriminate].
    + rewrite app_assoc in E. now apply no_close_later in E.
  - intros a1 a2 E Hne. apply set_match_behind_fails. intros u Hu.
    rewrite app_nil_r, rev_involutive in Hu. subst a1.
    rewrite contains_false in Hpre.
    destruct (exists_last Hne) as (a2' & z & ->).
    change set_open with (py "<in set(" ++ ["["]) in E at 1.
    rewrite !app_assoc in E. apply app_inj_tail in E as [E _].
    rewrite <- !app_assoc in E. now apply Hpre in E.
  - simpl. rewrite app_nil_r.
    apply set_match_body; [|assumption..|discriminate].
    exists pre. now rewrite rev_involutive.
Qed.

Lemma plain_member_inv (m : str) :
  plain_member m = true ->
  Py.contains (py ", ") m = false
  /\ Forall (fun c => not_newline c = true) m
  /\ Py.contains set_open m = false.
Proof.
  unfold plain_member. intros [[H1 H2]%andb_prop H3]%andb_prop.
  apply negb_true_iff in H1, H3. repeat split; try assumption.
  apply Forall_forall. intros c Hc. rewrite forallb_forall in H2.
  now apply H2, list_elem_of_In.
Qed.

Lemma head_unique_comma_space : head_unique (py ", ").
Proof.
  intros H. apply elem_of_cons in H as [H|H]; [discriminate|].
  now apply elem_of_nil in H.
Qed.

Lemma sorted_perm (ms1 ms2 : list str) :
  ms1 ≡ₚ ms2 -> Py.sorted ms1 = Py.sorted ms2.
Proof.
  intros H. unfold Py.sorted.
  apply (StronglySorted_unique Py.str_le);
    try (apply StronglySorted_merge_sort; apply _).
  now rewrite !merge_sort_Permutation.
Qed.

Lemma fixSet_members (pre suf : str) (ms : list str) :
  Py.contains set_open (pre ++ py "<in set(") = false ->
  Py.contains set_close suf = false ->
  forallb plain_member ms = true ->
  fixSet (pre ++ set_open ++ Py.join (py ", ") ms ++ set_close ++ suf)
  = Ok (pre ++ set_open ++ Py.join (py ", ") (Py.sorted ms) ++ set_close ++ suf).
Proof.
  intros Hpre Hsuf Hms.
  assert (Hall : Forall (fun m => plain_member m = true) ms).
  { apply Forall_forall. intros m Hm. rewrite forallb_forall in Hms.
    now apply Hms, list_elem_of_In. }
  assert (H1 : Forall (fun m => Py.contains (py ", ") m = false) ms)
    by (eapply Forall_impl; [exact Hall|]; intros m Hm;
        now apply plain_member_inv in Hm).
  assert (H2 : Forall (Forall (fun c => not_newline c = true)) ms)
    by (eapply Forall_impl; [exact Hall|]; intros m Hm;
        now apply plain_member_inv in Hm).
  assert (H3 : Forall (fun m => Py.contains set_open m = false) ms)
    by (eapply Forall_impl; [exact Hall|]; intros m Hm;
        now apply plain_member_inv in Hm).
  unfold fixSet. rewrite set_split_single; try assumption.
  - change ((1 <? length [pre ++ set_open; Py.join (py ", ") ms;
                           set_close ++ suf])%nat) with true.
    cbv beta iota. unfold index.
    change ([pre ++ set_open; Py.join (py ", ") ms; set_close ++ suf] !! 0)
      with (Some (pre ++ set_open)).
    change ([pre ++ set_open; Py.join (py ", ") ms; set_close ++ suf] !! 1)
      with (Some (Py.join (py ", ") ms)).
    change ([pre ++ set_open; Py.join (py ", ") ms; set_close ++ suf] !! 2)
      with (Some (set_close ++ suf)).
    unfold bind. f_equal. rewrite <- app_assoc. do 2 f_equal.
    destruct ms as [|m ms]; [reflexivity|].
    rewrite py_split_join;
      [reflexivity|apply head_unique_comma_space|discriminate|assumption].
  - apply Forall_join; [|assumption]. repeat constructor.
  - change set_open with ("<" :: set_open_tail) in *. rewrite contains_skip.
    + apply (contains_join "<" "," _ [" "]); [| |assumption].
      * vm_compute. intros H.
        repeat (apply elem_of_cons in H as [H|H]; [discriminate|]).
        now apply elem_of_nil in H.
      * intros H. apply elem_of_cons in H as [H|H]; [discriminate|].
        now apply elem_of_nil in H.
    + vm_compute. intros H.
      repeat (apply elem_of_cons in H as [H|H]; [discriminate|]).
      now apply elem_of_nil in H.
Qed.

(** C3, as amended.  When the opening delimiter does not occur before the
    one of the set, the closing delimiter does not occur after the one of the
    set, and no member holds a separator, a line break or an opening
    delimiter, two strings that differ only in the order of the members give
    the same result: the members in increasing order, joined by [", "],
    between the unchanged prefix and suffix. *)
Theorem fixSet_order_independent (pre suf : str) (ms1 ms2 : list str) :
  Py.contains (py "<in set([") (pre ++ py "<in set(") = false ->
  Py.contains (py "])>") suf = false ->
  forallb plain_member ms1 = true ->
  ms1 ≡ₚ ms2 ->
  let result :=
    pre ++ py "<in set([" ++ Py.join (py ", ") (Py.sorted ms1)
        ++ py "])>" ++ suf in
  fixSet (pre ++ py "<in set([" ++ Py.join (py ", ") ms1 ++ py "])>" ++ suf)
    = Ok result
  /\ fixSet (pre ++ py "<in set([" ++ Py.join (py ", ") ms2 ++ py "])>" ++ suf)
    = Ok result
  /\ StronglySorted Py.str_le (Py.sorted ms1)
  /\ Py.sorted ms1 ≡ₚ ms1.
Proof.
  intros Hpre Hsuf Hms Hperm result. subst result.
  split; [now apply fixSet_members|]. split.
  - rewrite (sorted_perm ms1 ms2 Hperm). apply fixSet_members; try assumption.
    apply forallb_forall. intros m Hm. rewrite forallb_forall in Hms.
    apply Hms. eapply Permutation_in; [symmetry; exact Hperm|exact Hm].
  - split; [apply StronglySorted_merge_sort; apply _|].
    apply merge_sort_Permutation.
Qed.

Lemma fixSet_order_independent_witness :
  fixSet (py "x = <in set([0x2, 0x10, 0x1])>;")
    = Ok (py "x = <in set([0x1, 0x10, 0x2])>;")
  /\ fixSet (py "x = <in set([0x10, 0x1, 0x2])>;")
    = Ok (py "x = <in set([0x1, 0x10, 0x2])>;").
Proof.
  destruct (fixSet_order_independent (py "x = ") (py ";")
              [py "0x2"; py "0x10"; py "0x1"] [py "0x10"; py "0x1"; py "0x2"])
    as (H1 & H2 & _).
  - reflexivity.
  - reflexivity.
  - reflexivity.
  - apply perm_trans with [py "0x10"; py "0x2"; py "0x1"].
    + apply perm_swap.
    + apply perm_skip, perm_swap.
  - split; [exact H1|exact H2].
Defined.

(** ** The pattern of suffixed literals *)

Lemma no_L_iff (s : str) : no_L s = true <-> "L" ∉ s.
Proof.
  unfold no_L. rewrite negb_true_iff, <- not_true_iff_false, existsb_exists.
  split.
  - intros H Hin. apply H. exists "L". split; [now apply list_elem_of_In|reflexivity].
  - intros H (c & Hc & E). apply Ascii.eqb_eq in E as <-.
    now apply H, list_elem_of_In.
Qed.

Lemma plus_L_inv p k bef aft res :
  Re.run (Re.Cat (Re.Plus p) (Re.Chr "L")) k bef aft = Some res ->
  exists x rest, aft = x ++ "L" :: rest /\ x <> []
                 /\ Forall (fun c => p c = true) x
                 /\ k ("L" :: rev x ++ bef) rest = Some res.
Proof.
  unfold Re.Plus, Re.Chr. cbn [Re.run].
  destruct aft as [|c aft]; [discriminate|].
  destruct (p c) eqn:Hc; [|discriminate]. intros H.
  apply Re.star_consumes in H as (m & a' & -> & Hm & H).
  destruct a' as [|l rest]; [discriminate|].
  destruct (Ascii.eqb_spec "L" l) as [<-|]; [|discriminate].
  exists (c :: m), rest. split; [reflexivity|]. split; [discriminate|].
  split; [now constructor|]. simpl. now rewrite <- app_assoc.
Qed.

Lemma plus_L_intro p k bef x rest res :
  x <> [] -> Forall (fun c => p c = true) x -> p "L" = false ->
  k ("L" :: rev x ++ bef) rest = Some res ->
  Re.run (Re.Cat (Re.Plus p) (Re.Chr "L")) k bef (x ++ "L" :: rest) = Some res.
Proof.
  intros Hne Hx HL Hk. destruct x as [|c x]; [congruence|].
  apply Forall_cons in Hx as [Hc Hx]. unfold Re.Plus, Re.Chr.
  cbn [Re.run app]. rewrite Hc.
  apply star_longest; [assumption| |].
  - rewrite Ascii.eqb_refl. cbn [rev] in Hk. now rewrite <- app_assoc in Hk.
  - intros m1 m2 E Hm1 Hp. destruct m1 as [|c1 m1]; [congruence|].
    simpl in E. injection E as <- _. apply Forall_cons in Hp as [Hp _].
    congruence.
Qed.

Lemma run_long_re (k : Re.cont) (bef aft : str) :
  Re.run long_re k bef aft =
  match
    (if guarded bef then
       match aft with
       | c0 :: c1 :: aft' =>
           if Ascii.eqb "0" c0 && Ascii.eqb "x" c1 then
             Re.run (Re.Cat (Re.Plus is_lower_hex) (Re.Chr "L")) k
               (c1 :: c0 :: bef) aft'
           else None
       | _ => None
       end
     else None)
  with
  | Some x => Some x
  | None => Re.run (Re.Cat (Re.Plus is_digit) (Re.Chr "L")) k bef aft
  end.
Proof.
  unfold long_re. cbn [Re.run]. unfold guarded. cbn [rev app Re.classes_match].
  destruct bef as [|b bef]; [reflexivity|]. rewrite andb_true_r.
  destruct (bracket_or_space b); [|reflexivity].
  destruct aft as [|c0 aft]; [reflexivity|]. cbn [Re.run Re.Chr].
  destruct aft as [|c1 aft]; [destruct (Ascii.eqb "0" c0); reflexivity|].
  destruct (Ascii.eqb "0" c0); [|reflexivity].
  destruct (Ascii.eqb "x" c1); reflexivity.
Qed.

Lemma hex_not_L (h : str) :
  Forall (fun c => is_lower_hex c = true) h -> "L" ∉ h.
Proof.
  intros H Hin. rewrite Forall_forall in H. apply H in Hin. discriminate.
Qed.

Lemma digit_not_L (x : str) :
  Forall (fun c => is_digit c = true) x -> "L" ∉ x.
Proof.
  intros H Hin. rewrite Forall_forall in H. apply H in Hin. discriminate.
Qed.

Lemma literal_body_no_L bef x : literal_body bef x -> "L" ∉ x.
Proof.
  intros [_ [H|(_ & h & -> & _ & H)]]; [now apply digit_not_L|].
  intros Hin. apply elem_of_cons in Hin as [?|Hin]; [discriminate|].
  apply elem_of_cons in Hin as [?|Hin]; [discriminate|].
  now apply hex_not_L in Hin.
Qed.

(** Every match is a literal body and its ['L']. *)
Lemma long_match_inv ma bef aft rest :
  Re.match_here long_re ma bef aft = Some rest ->
  exists x, aft = x ++ "L" :: rest /\ literal_body bef x.
Proof.
  unfold Re.match_here. rewrite run_long_re.
  set (k := Re.accept ma aft).
  assert (Hk : forall b a res, k b a = Some res -> res.2 = a).
  { unfold k, Re.accept. intros b a res.
    destruct (ma && _); [discriminate|]. now intros [= <-]. }
  destruct (guarded bef) eqn:Hg.
  - destruct aft as [|c0 [|c1 aft']] eqn:Haft; cycle 2.
    + destruct (Ascii.eqb_spec "0" c0) as [<-|]; cycle 1.
      { cbn [andb]. destruct (Re.run _ k bef _) as [[b a]|] eqn:E; [|discriminate].
        intros [= <-]. apply plus_L_inv in E as (x & rest & E & Hne & Hx & Hr).
        apply Hk in Hr. simpl in Hr. subst a. exists x. rewrite E.
        split; [reflexivity|]. split; auto. }
      destruct (Ascii.eqb_spec "x" c1) as [<-|]; cycle 1.
      { cbn [andb]. destruct (Re.run _ k bef _) as [[b a]|] eqn:E; [|discriminate].
        intros [= <-]. apply plus_L_inv in E as (x & rest & E & Hne & Hx & Hr).
        apply Hk in Hr. simpl in Hr. subst a. exists x. rewrite E.
        split; [reflexivity|]. split; auto. }
      cbn [andb].
      destruct (Re.run _ k ("x" :: "0" :: bef) aft') as [[b a]|] eqn:E.
      * intros [= <-]. apply plus_L_inv in E as (h & rest & -> & Hne & Hh & Hr).
        apply Hk in Hr. simpl in Hr. subst a. exists ("0" :: "x" :: h).
        split; [reflexivity|]. split; [discriminate|]. right. eauto.
      * destruct (Re.run _ k bef _) as [[b a]|] eqn:E2; [|discriminate].
        intros [= <-]. apply plus_L_inv in E2 as (x & rest & E2 & Hne & Hx & Hr).
        apply Hk in Hr. simpl in Hr. subst a. exists x. rewrite E2.
        split; [reflexivity|]. split; auto.
    + destruct (Re.run _ k bef _) as [[b a]|] eqn:E; [|discriminate].
      intros [= <-]. apply plus_L_inv in E as (x & rest & E & Hne & Hx & Hr).
      apply Hk in Hr. simpl in Hr. subst a. exists x. rewrite E.
      split; [reflexivity|]. split; auto.
    + destruct (Re.run _ k bef _) as [[b a]|] eqn:E; [|discriminate].
      intros [= <-]. apply plus_L_inv in E as (x & rest & E & Hne & Hx & Hr).
      apply Hk in Hr. simpl in Hr. subst a. exists x. rewrite E.
      split; [reflexivity|]. split; auto.
  - destruct (Re.run _ k bef _) as [[b a]|] eqn:E; [|discriminate].
    intros [= <-]. apply plus_L_inv in E as (x & rest & E & Hne & Hx & Hr).
    apply Hk in Hr. simpl in Hr. subst a. exists x. split; [exact E|].
    split; auto.
Qed.

Lemma accept_false start b a : Re.accept false start b a = Some (b, a).
Proof. reflexivity. Qed.

(** A digit before an ['L'] is matched, whatever precedes it. *)
Lemma long_match_digit bef d rest :
  is_digit d = true ->
  Re.match_here long_re false bef (d :: "L" :: rest) <> None.
Proof.
  intros Hd. unfold Re.match_here. rewrite run_long_re.
  match goal with
  | |- context [match ?A with Some x => Some x | None => ?B end] =>
      destruct A as [[b a]|]; [discriminate|]
  end.
  rewrite (plus_L_intro is_digit _ bef [d] rest
             ("L" :: rev [d] ++ bef, rest));
    [discriminate|discriminate|now repeat constructor|reflexivity|].
  apply accept_false.
Qed.

(** A hexadecimal literal before an ['L'] is matched after ['['] or a
    space. *)
Lemma long_match_hex bef h rest :
  guarded bef = true -> h <> [] ->
  Forall (fun c => is_lower_hex c = true) h ->
  Re.match_here long_re false bef ("0" :: "x" :: h ++ "L" :: rest) <> None.
Proof.
  intros Hg Hne Hh. unfold Re.match_here. rewrite run_long_re, Hg.
  rewrite !Ascii.eqb_refl. cbn [andb].
  rewrite (plus_L_intro is_lower_hex _ _ h rest
             ("L" :: rev h ++ "x" :: "0" :: bef, rest));
    [discriminate|assumption..|reflexivity|].
  apply accept_false.
Qed.

Lemma long_search_inv bef aft sk m rest :
  Re.search long_re false bef aft = Some (sk, m, rest) ->
  exists x, m = x ++ ["L"] /\ literal_body (rev sk ++ bef) x
            /\ aft = sk ++ x ++ "L" :: rest.
Proof.
  intros H. apply search_sound in H as [-> H].
  apply long_match_inv in H as (x & E & Hx).
  change (x ++ "L" :: rest) with (x ++ ["L"] ++ rest) in E.
  rewrite app_assoc in E. apply app_inv_tail in E as ->.
  exists x. split; [reflexivity|]. split; [assumption|].
  now rewrite <- app_assoc.
Qed.

(** One step of the split: the text skipped, a literal with its ['L'], and
    the split of the rest. *)
Lemma long_split_step bef aft :
  match Re.search long_re false bef aft with
  | None => Re.split_loop long_re false bef aft = [aft]
  | Some (sk, m, rest) =>
      exists x, m = x ++ ["L"] /\ literal_body (rev sk ++ bef) x
                /\ aft = sk ++ x ++ "L" :: rest
                /\ Re.split_loop long_re false bef aft
                   = sk :: m :: Re.split_loop long_re false
                                  (rev m ++ rev sk ++ bef) rest
  end.
Proof.
  rewrite split_loop_unfold.
  destruct (Re.search long_re false bef aft) as [[[sk m] rest]|] eqn:E;
    [|reflexivity].
  destruct (long_search_inv _ _ _ _ _ E) as (x & -> & Hx & ->).
  exists x. split; [reflexivity|]. split; [assumption|].
  split; [reflexivity|].
  rewrite bool_decide_eq_false_2; [reflexivity|].
  intros H. now apply app_eq_nil in H as [_ [=]].
Qed.

Lemma no_L_split bef (s : str) :
  "L" ∉ s -> Re.split_loop long_re false bef s = [s].
Proof.
  intros HL. pose proof (long_split_step bef s) as H.
  destruct (Re.search long_re false bef s) as [[[sk m] rest]|]; [|exact H].
  destruct H as (x & _ & _ & -> & _). exfalso. apply HL.
  apply elem_of_app. right. apply elem_of_app. right. left.
Qed.

(** *** Stripping *)

Lemma strip_L_other (s : str) : last s <> Some "L" -> strip_L s = s.
Proof.
  intros H. unfold strip_L, Py.ends_with.
  destruct (last s) as [d|]; [|now rewrite andb_false_r].
  destruct (Ascii.eqb_spec d "L") as [->|]; [congruence|].
  now rewrite andb_false_r.
Qed.

Lemma strip_L_no_L (s : str) : "L" ∉ s -> strip_L s = s.
Proof.
  intros H. apply strip_L_other. intros E. apply H.
  apply last_Some in E as [l ->]. apply elem_of_app. right. left.
Qed.

Lemma strip_L_token (x : str) : x <> [] -> strip_L (x ++ ["L"]) = x.
Proof.
  intros H. unfold strip_L, Py.ends_with.
  rewrite last_snoc, Ascii.eqb_refl, andb_true_r, length_app.
  destruct x as [|c x]; [congruence|]. cbn [length Nat.add Nat.ltb Nat.leb].
  rewrite Nat.add_1_r. cbn [Nat.leb]. apply removelast_last.
Qed.

Lemma fix_str_no_L (s : str) : "L" ∉ s -> fix_str s = s.
Proof.
  intros H. unfold fix_str, Re.split. rewrite no_L_split by assumption.
  simpl. rewrite strip_L_no_L by assumption. apply app_nil_r.
Qed.

(** *** Strings with a single ['L'] *)

Lemma split_unique {A} (c : A) : forall l1 r1 l2 r2 : list A,
  c ∉ l1 -> c ∉ r1 -> l1 ++ c :: r1 = l2 ++ c :: r2 -> l1 = l2 /\ r1 = r2.
Proof.
  induction l1 as [|x l1 IH]; intros r1 l2 r2 Hl Hr E.
  - destruct l2 as [|y l2]; simpl in E.
    + injection E as ->. auto.
    + injection E as <- ->. exfalso. apply Hr.
      apply elem_of_app. right. left.
  - apply not_elem_of_cons in Hl as [Hx Hl].
    destruct l2 as [|y l2]; simpl in E.
    + injection E as -> _. congruence.
    + injection E as <- E. destruct (IH _ _ _ Hl Hr E) as [-> ->]. auto.
Qed.

Lemma split_first {A} (c : A) : forall l1 r1 l2 r2 : list A,
  c ∉ l1 -> c ∉ l2 -> l1 ++ c :: r1 = l2 ++ c :: r2 -> l1 = l2 /\ r1 = r2.
Proof.
  induction l1 as [|x l1 IH]; intros r1 l2 r2 H1 H2 E.
  - destruct l2 as [|y l2]; simpl in E.
    + injection E as ->. auto.
    + injection E as <- _. exfalso. apply H2. left.
  - apply not_elem_of_cons in H1 as [Hx H1].
    destruct l2 as [|y l2]; simpl in E.
    + injection E as -> _. congruence.
    + injection E as <- E. apply not_elem_of_cons in H2 as [_ H2].
      destruct (IH _ _ _ H1 H2 E) as [-> ->]. auto.
Qed.

Lemma split_last {A} (c : A) (l1 r1 l2 r2 : list A) :
  c ∉ r1 -> c ∉ r2 -> l1 ++ c :: r1 = l2 ++ c :: r2 -> l1 = l2 /\ r1 = r2.
Proof.
  intros H1 H2 E. apply (f_equal (@rev A)) in E.
  rewrite !rev_app_distr in E. simpl in E. rewrite <- !app_assoc in E.
  simpl in E. apply split_first in E as [E1 E2].
  - apply (f_equal (@rev A)) in E1, E2. rewrite !rev_involutive in E1, E2. auto.
  - intros Hin. apply H1. now apply list_elem_of_In, in_rev, list_elem_of_In.
  - intros Hin. apply H2. now apply list_elem_of_In, in_rev, list_elem_of_In.
Qed.

Lemma one_L_matched (a b : str) :
  "L" ∉ a -> "L" ∉ b ->
  Re.search long_re false [] (a ++ "L" :: b) <> None ->
  fix_str (a ++ "L" :: b) = a ++ b.
Proof.
  intros Ha Hb Hs. unfold fix_str, Re.split.
  pose proof (long_split_step [] (a ++ "L" :: b)) as H.
  destruct (Re.search long_re false [] (a ++ "L" :: b)) as [[[sk m] rest]|];
    [|congruence].
  destruct H as (x & -> & Hx & E & ->).
  rewrite app_assoc in E. apply split_unique in E as [-> ->]; try assumption.
  rewrite no_L_split by assumption. simpl.
  rewrite strip_L_token by apply Hx.
  rewrite !strip_L_no_L; [now rewrite app_nil_r, app_assoc|assumption|].
  intros Hin. apply Ha. apply elem_of_app. now left.
Qed.

Lemma one_L_unmatched (a b : str) :
  "L" ∉ b -> b <> [] ->
  Re.search long_re false [] (a ++ "L" :: b) = None ->
  fix_str (a ++ "L" :: b) = a ++ "L" :: b.
Proof.
  intros Hb Hne Hs. unfold fix_str, Re.split.
  pose proof (long_split_step [] (a ++ "L" :: b)) as H.
  rewrite Hs in H. rewrite H. simpl. rewrite app_nil_r.
  apply strip_L_other. intros E. apply Hb.
  destruct (exists_last Hne) as (b' & z & ->).
  change (a ++ "L" :: b' ++ [z]) with (a ++ ("L" :: b') ++ [z]) in E.
  rewrite app_assoc, last_snoc in E. injection E as ->.
  apply elem_of_app. right. left.
Qed.

(** *** The guard of the hexadecimal alternative *)

Lemma guarded_rev (pre : str) :
  guarded (rev pre ++ []) = after_bracket_or_space pre.
Proof.
  rewrite app_nil_r. unfold after_bracket_or_space.
  destruct pre as [|c pre] using rev_ind; [reflexivity|].
  now rewrite rev_app_distr, last_snoc.
Qed.

Lemma Forall_of_forallb (p : ascii -> bool) (s : str) :
  forallb p s = true -> Forall (fun c => p c = true) s.
Proof.
  intros H. apply Forall_forall. intros c Hc. rewrite forallb_forall in H.
  now apply H, list_elem_of_In.
Qed.

Lemma search_found r sk aft' :
  Re.match_here r false (rev sk ++ []) aft' <> None ->
  Re.search r false [] (sk ++ aft') <> None.
Proof.
  destruct (Re.match_here r false (rev sk ++ []) aft') as [rest|] eqn:E;
    [|congruence].
  intros _. eapply search_finds. exact E.
Qed.

Lemma fix_str_decimal (pre suf : str) (d : ascii) :
  no_L pre = true -> no_L suf = true -> is_digit d = true ->
  fix_str (pre ++ d :: "L" :: suf) = pre ++ d :: suf.
Proof.
  intros Hpre%no_L_iff Hsuf%no_L_iff Hd.
  change (pre ++ d :: "L" :: suf) with (pre ++ [d] ++ "L" :: suf).
  change (pre ++ d :: suf) with (pre ++ [d] ++ suf).
  rewrite !app_assoc. apply one_L_matched; [|assumption|].
  - intros Hin. apply elem_of_app in Hin as [Hin|Hin]; [now apply Hpre|].
    apply elem_of_cons in Hin as [<-|Hin]; [discriminate|].
    now apply elem_of_nil in Hin.
  - rewrite <- app_assoc. apply search_found. now apply long_match_digit.
Qed.

Lemma hex_body_no_L (pre h : str) :
  "L" ∉ pre -> Forall (fun c => is_lower_hex c = true) h ->
  "L" ∉ pre ++ "0" :: "x" :: h.
Proof.
  intros Hpre Hh Hin. apply elem_of_app in Hin as [Hin|Hin]; [now apply Hpre|].
  apply elem_of_cons in Hin as [?|Hin]; [discriminate|].
  apply elem_of_cons in Hin as [?|Hin]; [discriminate|].
  now apply hex_not_L in Hin.
Qed.

Lemma fix_str_hex_guarded (pre h suf : str) :
  no_L pre = true -> no_L suf = true ->
  h <> [] -> forallb is_lower_hex h = true ->
  after_bracket_or_space pre = true ->
  fix_str (pre ++ py "0x" ++ h ++ "L" :: suf) = pre ++ py "0x" ++ h ++ suf.
Proof.
  intros Hpre%no_L_iff Hsuf%no_L_iff Hne Hh%Forall_of_forallb Hg.
  change (pre ++ py "0x" ++ h ++ "L" :: suf)
    with (pre ++ ("0" :: "x" :: h) ++ "L" :: suf).
  change (pre ++ py "0x" ++ h ++ suf) with (pre ++ ("0" :: "x" :: h) ++ suf).
  rewrite !app_assoc. apply one_L_matched; [|assumption|].
  - now apply hex_body_no_L.
  - rewrite <- app_assoc. apply search_found.
    apply long_match_hex; [|assumption..]. now rewrite guarded_rev.
Qed.

Lemma hex_not_x (h : str) :
  Forall (fun c => is_lower_hex c = true) h -> "x" ∉ h.
Proof.
  intros H Hin. rewrite Forall_forall in H. apply H in Hin. discriminate.
Qed.

Lemma fix_str_hex_unguarded (pre h suf : str) :
  no_L pre = true -> no_L suf = true ->
  h <> [] -> forallb is_lower_hex h = true ->
  after_bracket_or_space pre = false -> ends_in_digit h = false ->
  suf <> [] ->
  fix_str (pre ++ py "0x" ++ h ++ "L" :: suf)
  = pre ++ py "0x" ++ h ++ "L" :: suf.
Proof.
  intros Hpre%no_L_iff Hsuf%no_L_iff Hne Hh%Forall_of_forallb Hg Hd Hs.
  change (pre ++ py "0x" ++ h ++ "L" :: suf)
    with (pre ++ ("0" :: "x" :: h) ++ "L" :: suf).
  rewrite !app_assoc. apply one_L_unmatched; [assumption..|].
  destruct (Re.search long_re false [] _) as [[[sk m] rest]|] eqn:E;
    [|reflexivity].
  exfalso. apply long_search_inv in E as (x & -> & [Hx Hbody] & E).
  rewrite (app_assoc sk) in E.
  apply split_unique in E as [E _];
    [|now apply hex_body_no_L|assumption].
  destruct Hbody as [Hdig|(Hgd & h2 & -> & _ & Hh2)].
  - destruct (exists_last Hx) as (x' & z & ->).
    destruct (exists_last Hne) as (h' & y & ->).
    change (pre ++ "0" :: "x" :: h' ++ [y])
      with (pre ++ ("0" :: "x" :: h') ++ [y]) in E.
    rewrite !app_assoc in E. apply app_inj_tail in E as [_ ->].
    unfold ends_in_digit in Hd. rewrite last_snoc in Hd.
    apply Forall_app in Hdig as [_ Hz]. apply Forall_cons in Hz as [Hz _].
    congruence.
  - change (pre ++ "0" :: "x" :: h) with (pre ++ ["0"] ++ "x" :: h) in E.
    change (sk ++ "0" :: "x" :: h2) with (sk ++ ["0"] ++ "x" :: h2) in E.
    rewrite !app_assoc in E.
    apply split_last in E as [E _]; [|now apply hex_not_x..].
    apply app_inj_tail in E as [-> _].
    rewrite guarded_rev in Hgd. congruence.
Qed.

Lemma literal_body_last bef x :
  literal_body bef x -> exists x' z, x = x' ++ [z] /\ is_lower_hex z = true.
Proof.
  intros [Hne H]. destruct (exists_last Hne) as (x' & z & ->).
  exists x', z. split; [reflexivity|].
  destruct H as [H|(_ & h & E & Hh & H)].
  - apply Forall_app in H as [_ H]. apply Forall_cons in H as [H _].
    unfold is_lower_hex. now rewrite H.
  - destruct (exists_last Hh) as (h' & y & ->).
    change ("0" :: "x" :: h' ++ [y]) with (("0" :: "x" :: h') ++ [y]) in E.
    apply app_inj_tail in E as [_ ->].
    apply Forall_app in H as [_ H]. now apply Forall_cons in H as [H _].
Qed.

(** An ['L'] that follows neither a digit nor a lower-case hexadecimal digit
    (an upper-case one, say) is no suffix for the pattern: with more text
    after it, it stays. *)
Lemma fix_str_keeps_other_L (a suf : str) (z : ascii) :
  no_L a = true -> no_L suf = true -> z <> "L" ->
  is_lower_hex z = false -> suf <> [] ->
  fix_str (a ++ z :: "L" :: suf) = a ++ z :: "L" :: suf.
Proof.
  intros Ha%no_L_iff Hsuf%no_L_iff Hz Hhex Hs.
  change (a ++ z :: "L" :: suf) with (a ++ [z] ++ "L" :: suf).
  rewrite !app_assoc. apply one_L_unmatched; [assumption..|].
  destruct (Re.search long_re false [] _) as [[[sk m] rest]|] eqn:E;
    [|reflexivity].
  exfalso. apply long_search_inv in E as (x & -> & Hbody & E).
  rewrite (app_assoc sk) in E. apply split_unique in E as [E _];
    [|intros Hin; apply elem_of_app in Hin as [Hin|Hin];
      [now apply Ha|apply elem_of_cons in Hin as [?|Hin];
                    [congruence|now apply elem_of_nil in Hin]]
     |assumption].
  apply literal_body_last in Hbody as (x' & y & -> & Hy).
  rewrite !app_assoc in E. apply app_inj_tail in E as [_ ->]. congruence.
Qed.



(** *** Idempotence *)

Lemma fix_pieces_no_L : forall (n : nat) (bef aft : str),
  length aft <= n ->
  forallb no_L (unmatched (Re.split_loop long_re false bef aft)) = true ->
  "L" ∉ concat (map strip_L (Re.split_loop long_re false bef aft)).
Proof.
  induction n as [|n IH]; intros bef aft Hlen Hu;
    pose proof (long_split_step bef aft) as H;
    destruct (Re.search long_re false bef aft) as [[[sk m] rest]|].
  - destruct H as (x & _ & _ & -> & _). rewrite !length_app in Hlen.
    simpl in Hlen. lia.
  - rewrite H in *. simpl in *. rewrite andb_true_r in Hu.
    apply no_L_iff in Hu. now rewrite app_nil_r, strip_L_no_L.
  - destruct H as (x & -> & Hx & -> & H). rewrite H in *.
    cbn [unmatched forallb] in Hu. apply andb_prop in Hu as [Hsk Hu].
    apply no_L_iff in Hsk. cbn [map concat].
    rewrite strip_L_no_L by assumption. rewrite strip_L_token by apply Hx.
    intros Hin. apply elem_of_app in Hin as [Hin|Hin]; [now apply Hsk|].
    apply elem_of_app in Hin as [Hin|Hin];
      [now apply (literal_body_no_L _ _ Hx)|].
    revert Hin. apply IH; [|assumption].
    rewrite !length_app in Hlen. simpl in Hlen. lia.
  - rewrite H in *. simpl in *. rewrite andb_true_r in Hu.
    apply no_L_iff in Hu. now rewrite app_nil_r, strip_L_no_L.
Qed.

Lemma fix_str_twice (s : str) :
  only_suffix_L s = true -> fix_str (fix_str s) = fix_str s.
Proof.
  intros H. apply fix_str_no_L. unfold fix_str, Re.split.
  now apply (fix_pieces_no_L (length s)).
Qed.




(** * Further properties *)

(** ** The pieces of a split *)

Lemma split_loop_nonempty r ma bef aft : Re.split_loop r ma bef aft <> [].
Proof.
  rewrite split_loop_unfold.
  destruct (Re.search r ma bef aft) as [[[sk m] rest]|]; discriminate.
Qed.

(** The pieces, matches included, make up the string. *)
Lemma split_loop_concat r : forall (n : nat) ma bef aft,
  Re.measure ma aft <= n -> concat (Re.split_loop r ma bef aft) = aft.
Proof.
  induction n as [|n IH]; intros ma bef aft Hn; rewrite split_loop_unfold;
    destruct (Re.search r ma bef aft) as [[[sk m] rest]|] eqn:E;
    try (simpl; apply app_nil_r);
    pose proof (Re.search_measure _ _ _ _ _ _ _ E) as Hm; [lia|].
  apply Re.search_consumes in E as [-> _].
  cbn [concat]. rewrite IH by lia. reflexivity.
Qed.

Lemma split_concat r (s : str) : concat (Re.split r s) = s.
Proof. unfold Re.split. now apply (split_loop_concat r (Re.measure false s)). Qed.

(** More than one piece means at least three. *)
Lemma split_loop_three r ma bef aft :
  1 < length (Re.split_loop r ma bef aft) ->
  exists s0 s1 s2 tl, Re.split_loop r ma bef aft = s0 :: s1 :: s2 :: tl.
Proof.
  rewrite split_loop_unfold.
  destruct (Re.search r ma bef aft) as [[[sk m] rest]|]; [|simpl; lia].
  intros _.
  destruct (Re.split_loop r (bool_decide (m = [])) (rev m ++ rev sk ++ bef) rest)
    as [|s2 tl] eqn:E; [now apply split_loop_nonempty in E|].
  eauto.
Qed.

(** ** What fixOutput does to a string *)

Lemma strip_L_cases (p : str) :
  strip_L p = p \/ exists x, p = x ++ ["L"] /\ x <> [] /\ strip_L p = x.
Proof.
  unfold strip_L, Py.ends_with.
  destruct (1 <? length p)%nat eqn:Hlen; [|now left].
  destruct (last p) as [d|] eqn:Hlast; [|now left].
  destruct (Ascii.eqb_spec d "L") as [->|]; [|now left].
  right. apply last_Some in Hlast as [x ->]. exists x.
  split; [reflexivity|]. split.
  - intros ->. discriminate.
  - apply removelast_last.
Qed.

Lemma strip_L_sublist (p : str) : strip_L p `sublist_of` p.
Proof.
  destruct (strip_L_cases p) as [->|(x & -> & _ & ->)]; [reflexivity|].
  now apply sublist_inserts_r.
Qed.

Lemma strip_L_filter (p : str) :
  filter (fun c => c <> "L") (strip_L p) = filter (fun c => c <> "L") p.
Proof.
  destruct (strip_L_cases p) as [->|(x & -> & _ & ->)]; [reflexivity|].
  rewrite filter_app. cbn. now rewrite app_nil_r.
Qed.

Lemma strip_pieces_sublist (pieces : list str) :
  concat (map strip_L pieces) `sublist_of` concat pieces.
Proof.
  induction pieces as [|p pieces IH]; [reflexivity|]. cbn [map concat].
  apply sublist_app; [apply strip_L_sublist|assumption].
Qed.

Lemma strip_pieces_filter (pieces : list str) :
  filter (fun c => c <> "L") (concat (map strip_L pieces))
  = filter (fun c => c <> "L") (concat pieces).
Proof.
  induction pieces as [|p pieces IH]; [reflexivity|]. cbn [map concat].
  now rewrite !filter_app, strip_L_filter, IH.
Qed.

Lemma fix_str_sublist (s : str) : fix_str s `sublist_of` s.
Proof.
  unfold fix_str. rewrite <- (split_concat long_re s) at 2.
  apply strip_pieces_sublist.
Qed.

Lemma fix_str_filter (s : str) :
  filter (fun c => c <> "L") (fix_str s) = filter (fun c => c <> "L") s.
Proof.
  unfold fix_str. rewrite <- (split_concat long_re s) at 2.
  apply strip_pieces_filter.
Qed.

(** X1.  A string element only loses letters ['L']: what [fixOutput] puts in
    its place is the string with some characters taken out, and the
    characters other than ['L'] are all there, in their order. *)
Theorem fixOutput_only_deletes_L (S R : list pyval) (i : nat) (s : str) :
  fixOutput S = Ok R -> S !! i = Some (PStr s) ->
  exists s', R !! i = Some (PStr s')
             /\ s' `sublist_of` s
             /\ filter (fun c => c <> "L") s' = filter (fun c => c <> "L") s.
Proof.
  intros HR Hi. exists (fix_str s).
  split; [now apply (fixOutput_lookup_str S)|].
  split; [apply fix_str_sublist|apply fix_str_filter].
Qed.

Lemma fixOutput_only_deletes_L_witness :
  exists s', [PObj 0; PStr (py "[0x1f, ALL]")] !! 1 = Some (PStr s')
             /\ s' `sublist_of` py "[0x1fL, ALL]"
             /\ filter (fun c => c <> "L") s'
                = filter (fun c => c <> "L") (py "[0x1fL, ALL]").
Proof.
  assert (HR : fixOutput [PObj 0; PStr (py "[0x1fL, ALL]")]
               = Ok [PObj 0; PStr (py "[0x1f, ALL]")])
    by (vm_compute; reflexivity).
  destruct (fixOutput_only_deletes_L _ _ 1 (py "[0x1fL, ALL]") HR eq_refl)
    as (s' & H1 & H2 & H3).
  exists s'. auto.
Defined.

(** A string that the pattern matches somewhere comes out shorter. *)
Lemma fix_str_shorter (s : str) :
  Re.search long_re false [] s <> None -> length (fix_str s) < length s.
Proof.
  intros Hs. unfold fix_str, Re.split.
  pose proof (long_split_step [] s) as H.
  destruct (Re.search long_re false [] s) as [[[sk m] rest]|]; [|congruence].
  destruct H as (x & -> & Hx & -> & ->).
  cbn [map concat]. rewrite strip_L_token by apply Hx.
  rewrite !length_app. cbn [length].
  pose proof (sublist_length _ _ (strip_L_sublist sk)).
  pose proof (sublist_length _ _ (strip_pieces_sublist
    (Re.split_loop long_re false (rev (x ++ ["L"]) ++ rev sk ++ []) rest))) as H2.
  rewrite (split_loop_concat long_re (Re.measure false rest)) in H2 by lia.
  lia.
Qed.

Lemma fix_str_fixed_iff (s : str) :
  fix_str s = s <->
  Re.search long_re false [] s = None
  /\ (1 <? length s)%nat && Py.ends_with "L" s = false.
Proof.
  split.
  - intros H.
    assert (Hs : Re.search long_re false [] s = None).
    { destruct (Re.search long_re false [] s) eqn:E; [|reflexivity].
      assert (Hlt : length (fix_str s) < length s)
        by (apply fix_str_shorter; congruence).
      rewrite H in Hlt. lia. }
    split; [exact Hs|].
    unfold fix_str, Re.split in H. rewrite split_loop_unfold, Hs in H.
    cbn in H. rewrite app_nil_r in H. unfold strip_L in H.
    destruct ((1 <? length s)%nat && Py.ends_with "L" s) eqn:E; [|reflexivity].
    apply (f_equal length) in H. apply andb_prop in E as [E _].
    apply Nat.ltb_lt in E. destruct s as [|c s] using rev_ind; [simpl in E; lia|].
    rewrite removelast_last, length_app in H. simpl in H. lia.
  - intros [Hs He]. unfold fix_str, Re.split.
    rewrite split_loop_unfold, Hs. cbn. rewrite app_nil_r.
    unfold strip_L. now rewrite He.
Qed.

(** X2.  A string element comes out as it went in exactly when the pattern
    matches nowhere in it and it does not end, after at least one other
    character, in ['L']. *)
Theorem fixOutput_unchanged_iff (S R : list pyval) (i : nat) (s : str) :
  fixOutput S = Ok R -> S !! i = Some (PStr s) ->
  (R !! i = Some (PStr s) <->
   Re.search long_re false [] s = None
   /\ (1 <? length s)%nat && Py.ends_with "L" s = false).
Proof.
  intros HR Hi. rewrite (fixOutput_lookup_str S R i s HR Hi).
  rewrite <- fix_str_fixed_iff. split; [now intros [= ->]|now intros ->].
Qed.

Lemma fixOutput_unchanged_iff_witness :
  [PStr (py "MLIL 3")] !! 0 = Some (PStr (py "MLIL 3")) <->
  Re.search long_re false [] (py "MLIL 3") = None
  /\ (1 <? length (py "MLIL 3"))%nat && Py.ends_with "L" (py "MLIL 3") = false.
Proof.
  apply (fixOutput_unchanged_iff [PStr (py "MLIL 3")] [PStr (py "MLIL 3")] 0).
  - vm_compute. reflexivity.
  - reflexivity.
Defined.

(** ** fixOutput in closed form *)

Lemma traverse_app {A B} (f : A -> result B) (l1 l2 : list A) :
  traverse f (l1 ++ l2) =
  (do r1 <- traverse f l1; do r2 <- traverse f l2; Ok (r1 ++ r2)).
Proof.
  induction l1 as [|a l1 IH]; simpl.
  - now destruct (traverse f l2).
  - destruct (f a) as [b|e]; [|reflexivity]. simpl. rewrite IH.
    destruct (traverse f l1) as [r1|e]; [|reflexivity]. simpl.
    now destruct (traverse f l2).
Qed.

Lemma traverse_as_str (l : list pyval) :
  traverse as_str l =
  if forallb is_str l then Ok (map str_of l) else Raise TypeError.
Proof.
  induction l as [|v l IH]; [reflexivity|]. simpl. rewrite IH.
  destruct v as [s| |n]; simpl; try reflexivity.
  now destruct (forallb is_str l).
Qed.

Lemma traverse_strip_items (items : list pyval) :
  match traverse strip_L_item items with
  | Ok items' =>
      forallb is_str items' = forallb is_str items
      /\ map str_of items' = map strip_L (map str_of items)
         \/ forallb is_str items' = false /\ forallb is_str items = false
  | Raise e => e = TypeError /\ forallb is_str items = false
  end.
Proof.
  induction items as [|v items IH]; simpl; [now left|].
  destruct v as [s|l|n]; simpl; [| |auto].
  - destruct (traverse strip_L_item items) as [items'|e]; simpl.
    + destruct IH as [[H1 H2]|[H1 H2]]; [left|right]; simpl; auto.
      now rewrite H2.
    + exact IH.
  - destruct (traverse strip_L_item items) as [items'|e]; simpl.
    + now right.
    + destruct IH as [-> _]. auto.
Qed.

Lemma resolve_list (items : list pyval) :
  resolve_elem (PList items) =
  if forallb is_str items
  then Ok (PStr (concat (map strip_L (map str_of items))))
  else Raise TypeError.
Proof.
  unfold resolve_elem, join_empty.
  pose proof (traverse_strip_items items) as H.
  destruct (traverse strip_L_item items) as [items'|e]; simpl.
  - rewrite traverse_as_str.
    destruct H as [[H1 H2]|[H1 H2]]; rewrite H1.
    + destruct (forallb is_str items); simpl; [now rewrite H2|reflexivity].
    + now rewrite H2.
  - destruct H as [-> ->]. reflexivity.
Qed.

Lemma resolve_split_elem (v : pyval) :
  resolve_elem (split_elem v) =
  if joinable v then Ok (resolved v) else Raise TypeError.
Proof.
  destruct v as [s|items|n]; [apply resolve_split|apply resolve_list|reflexivity].
Qed.

Lemma fixOutput_closed (S : list pyval) :
  fixOutput S =
  if forallb joinable S then Ok (map resolved S) else Raise TypeError.
Proof.
  induction S as [|v S IH]; [reflexivity|].
  rewrite fixOutput_cons, resolve_split_elem, IH. simpl.
  destruct (joinable v); [|reflexivity]. simpl.
  now destruct (forallb joinable S).
Qed.





Lemma str_of_PStr (l : list str) : map str_of (map PStr l) = l.
Proof. induction l as [|s l IH]; simpl; [reflexivity|now rewrite IH]. Qed.

(** X5.  A list of strings in the argument does not pass through: each of
    its strings loses a final ['L'] that follows another character, and the
    strings are joined into one, which stands in the place of the list. *)
Theorem fixOutput_joins_lists (S R : list pyval) (i : nat) (l : list str) :
  fixOutput S = Ok R -> S !! i = Some (PList (map PStr l)) ->
  R !! i = Some (PStr (concat (map strip_L l))).
Proof.
  rewrite fixOutput_closed. destruct (forallb joinable S); [|discriminate].
  intros [= <-] Hi. rewrite list_lookup_fmap, Hi. cbn [fmap option_fmap option_map resolved].
  now rewrite str_of_PStr.
Qed.

Lemma fixOutput_joins_lists_witness :
  [PStr (py "abcd")] !! 0
  = Some (PStr (concat (map strip_L [py "ab"; py "cdL"]))).
Proof.
  apply (fixOutput_joins_lists [PList (map PStr [py "ab"; py "cdL"])]
           [PStr (py "abcd")] 0).
  - vm_compute. reflexivity.
  - reflexivity.
Defined.

(** X6.  [fixOutput] works element by element: on two lists put end to end
    it returns the two results put end to end, and raises when it raises on
    either. *)
Theorem fixOutput_app (S1 S2 : list pyval) :
  fixOutput (S1 ++ S2) =
  (do R1 <- fixOutput S1; do R2 <- fixOutput S2; Ok (R1 ++ R2)).
Proof.
  unfold fixOutput. cbv zeta. rewrite map_app. apply traverse_app.
Qed.

(** ** fixSet on any string *)

Lemma join_flat_map (sep : str) (l : list str) :
  l <> [] -> sep ++ Py.join sep l = flat_map (fun x => sep ++ x) l.
Proof.
  induction l as [|a l IH]; [congruence|]. intros _.
  destruct l as [|b l].
  - simpl. now rewrite !app_nil_r.
  - change (Py.join sep (a :: b :: l)) with (a ++ sep ++ Py.join sep (b :: l)).
    transitivity ((sep ++ a) ++ flat_map (fun x => sep ++ x) (b :: l));
      [|reflexivity].
    rewrite <- IH by discriminate. now rewrite <- app_assoc.
Qed.

Lemma join_Permutation (sep : str) (l l' : list str) :
  l ≡ₚ l' -> Py.join sep l ≡ₚ Py.join sep l'.
Proof.
  intros H. destruct l as [|a l].
  - apply Permutation_nil in H as ->. reflexivity.
  - assert (Hne : l' <> []) by (intros ->; now apply Permutation_nil_r in H).
    apply (Permutation_app_inv_l sep).
    rewrite !join_flat_map by (assumption || discriminate).
    now apply Permutation_flat_map.
Qed.

(** Sorting the members rearranges the characters of the member list. *)
Lemma sorted_members_Permutation (b : str) :
  Py.join (py ", ") (Py.sorted (Py.py_split (py ", ") b)) ≡ₚ b.
Proof.
  destruct (py_split_pieces "," [" "] (length b) b (le_n _)) as (Hj & _ & _).
  rewrite <- Hj at 2. apply join_Permutation. apply merge_sort_Permutation.
Qed.

(** X7.  [fixSet] never raises: when the split has more than one piece it
    has at least three.  Its result is never longer than its argument, and
    when the pattern matches at most once the result has the characters of
    the argument, rearranged. *)
Theorem fixSet_total (s : str) :
  exists r, fixSet s = Ok r
            /\ length r <= length s
            /\ (length (Re.split set_re s) <= 3 -> r ≡ₚ s).
Proof.
  unfold fixSet.
  destruct (1 <? length (Re.split set_re s))%nat eqn:Hlen;
    [|exists s; split; [reflexivity|split; [lia|reflexivity]]].
  apply Nat.ltb_lt in Hlen. unfold Re.split in *.
  destruct (split_loop_three _ _ _ _ Hlen) as (s0 & s1 & s2 & tl & E).
  pose proof (split_loop_concat set_re _ false [] s (le_n _)) as Hc.
  rewrite E in *. cbn [concat] in Hc.
  exists (s0 ++ Py.join (py ", ") (Py.sorted (Py.py_split (py ", ") s1)) ++ s2).
  split; [reflexivity|].
  pose proof (sorted_members_Permutation s1) as Hp.
  split.
  - rewrite <- Hc, !length_app, (Permutation_length Hp). lia.
  - intros Hl. destruct tl as [|? ?]; [|simpl in Hl; lia].
    rewrite <- Hc. cbn [concat]. rewrite app_nil_r.
    apply Permutation_app_head. now apply Permutation_app_tail.
Qed.

Lemma fixSet_total_witness :
  length (Re.split set_re (py "v <in set([z, a])>")) <= 3
  /\ exists r, fixSet (py "v <in set([z, a])>") = Ok r
               /\ r ≡ₚ py "v <in set([z, a])>".
Proof.
  assert (H : length (Re.split set_re (py "v <in set([z, a])>")) <= 3)
    by (vm_compute; lia).
  split; [exact H|].
  destruct (fixSet_total (py "v <in set([z, a])>")) as (r & Hr & _ & Hp).
  exists r. split; [exact Hr|]. exact (Hp H).
Defined.

(** X8.  On a string with one set whose members are plain (the conditions
    of the amended order-independence law), the result of [fixSet] is a fixed
    point of [fixSet]. *)
Theorem fixSet_idempotent_on_plain (pre suf : str) (ms : list str) :
  Py.contains (py "<in set([") (pre ++ py "<in set(") = false ->
  Py.contains (py "])>") suf = false ->
  forallb plain_member ms = true ->
  exists r,
    fixSet (pre ++ py "<in set([" ++ Py.join (py ", ") ms ++ py "])>" ++ suf)
      = Ok r
    /\ fixSet r = Ok r.
Proof.
  intros Hpre Hsuf Hms. eexists. split; [now apply fixSet_members|].
  assert (Hp : Py.sorted ms ≡ₚ ms) by apply merge_sort_Permutation.
  rewrite (fixSet_members pre suf (Py.sorted ms)); try assumption.
  - now rewrite (sorted_perm _ _ Hp).
  - apply forallb_forall. intros m Hm. rewrite forallb_forall in Hms.
    apply Hms. eapply Permutation_in; [exact Hp|exact Hm].
Qed.

Lemma fixSet_idempotent_on_plain_witness :
  exists r, fixSet (py "<in set([0x2, 0x1])>") = Ok r /\ fixSet r = Ok r.
Proof.
  apply (fixSet_idempotent_on_plain [] [] [py "0x2"; py "0x1"]);
    reflexivity.
Defined.

(** ** remove_low_confidence on any string *)

Lemma py_replace_deletes c w : forall (n : nat) (s : str),
  length s <= n ->
  Py.py_replace (c :: w) [] s `sublist_of` s
  /\ (Py.contains (c :: w) s = true ->
      length (Py.py_replace (c :: w) [] s) < length s)
  /\ (Py.contains (c :: w) s = false -> Py.py_replace (c :: w) [] s = s).
Proof.
  induction n as [|n IH]; intros s Hlen; rewrite py_replace_unfold;
    unfold Py.contains;
    destruct (Py.find (c :: w) s) as [[a b]|] eqn:E;
    try (split; [reflexivity|split; [discriminate|reflexivity]]).
  - apply Py.find_app in E. subst s. rewrite !length_app in Hlen.
    simpl in Hlen. lia.
  - apply Py.find_app in E. subst s.
    destruct (IH b) as (Hsub & _ & _).
    { rewrite !length_app in Hlen. simpl in Hlen. lia. }
    split; [|split; [|discriminate]].
    + apply sublist_app; [reflexivity|]. simpl.
      now apply sublist_cons, sublist_inserts_l.
    + intros _. apply sublist_length in Hsub.
      rewrite !length_app. simpl. lia.
Qed.

(** X9.  [remove_low_confidence] only takes characters out, and it returns
    its argument unchanged exactly when the argument holds neither
    ["int32_t "] nor ["void "]. *)
Theorem remove_low_confidence_fixed_iff (s : str) :
  remove_low_confidence s `sublist_of` s
  /\ (remove_low_confidence s = s <->
      Py.contains (py "int32_t ") s = false
      /\ Py.contains (py "void ") s = false).
Proof.
  change (remove_low_confidence s)
    with (Py.py_replace (py "void ") [] (Py.py_replace (py "int32_t ") [] s)).
  set (r1 := Py.py_replace (py "int32_t ") [] s).
  destruct (py_replace_deletes "i" (py "nt32_t ") (length s) s (le_n _))
    as (Hs1 & Hlt1 & Hid1).
  destruct (py_replace_deletes "v" (py "oid ") (length r1) r1 (le_n _))
    as (Hs2 & Hlt2 & Hid2).
  change ("i" :: py "nt32_t ") with (py "int32_t ") in *.
  change ("v" :: py "oid ") with (py "void ") in *.
  fold r1 in Hs1, Hlt1, Hid1.
  split; [now transitivity r1|].
  pose proof (sublist_length _ _ Hs1) as L1.
  pose proof (sublist_length _ _ Hs2) as L2.
  split.
  - intros H.
    assert (H1 : Py.contains (py "int32_t ") s = false).
    { destruct (Py.contains (py "int32_t ") s); [|reflexivity].
      specialize (Hlt1 eq_refl). rewrite H in L2. lia. }
    split; [exact H1|]. specialize (Hid1 H1).
    destruct (Py.contains (py "void ") s) eqn:H2; [|reflexivity].
    rewrite Hid1 in *. specialize (Hlt2 H2). rewrite H in Hlt2. lia.
  - intros [H1 H2]. rewrite (Hid1 H1) in *. now apply Hid2.
Qed.

(** ** The life of a fixture *)

Lemma unpackage_file_cases (h : Builder.host) (self : Builder.builder)
    (filename : str) (fs : gmap str Builder.node) :
  let path := Builder.target h self filename in
  let r := Builder.unpackage_file h self filename fs in
  (r.1 = Ok (Builder.relpath h path) /\ Builder.exists_ r.2 path = true
   \/ exists e, r.1 = Raise e)
  /\ (r.2 = fs
      \/ Builder.exists_ fs path = false
         /\ exists members,
              fs !! (path ++ py ".zip") = Some (Builder.Zip members)
              /\ r.2 = Builder.extractall members (Builder.here h) fs)
  /\ (Builder.exists_ fs path = true -> r = (Ok (Builder.relpath h path), fs)).
Proof.
  intros path r. subst r.
  unfold Builder.unpackage_file, Builder.extract_archive. fold path.
  set (archive := path ++ py ".zip").
  destruct (Builder.exists_ fs path) eqn:E; cbn [negb].
  { rewrite E. simpl. auto. }
  destruct (fs !! archive) as [[|members]|] eqn:Ez; simpl;
    [split; [eauto|]; split; [auto|discriminate]| |
     split; [eauto|]; split; [auto|discriminate]].
  destruct (Builder.exists_ (Builder.extractall members (Builder.here h) fs) path)
    eqn:E'; simpl; (split; [eauto|]; split; [right; eauto|discriminate]).
Qed.

Lemma materialize_then_release (h : Builder.host)
    (self : Builder.builder) (filename : str) (fs : gmap str Builder.node)
    (members : list str) :
  let path := Builder.target h self filename in
  fs !! path = None ->
  fs !! (path ++ py ".zip") = Some (Builder.Zip members) ->
  members <> [] ->
  (forall m, m ∈ members -> Builder.path_join (Builder.here h) m = path) ->
  (Builder.unpackage_file h self filename fs).1 = Ok (Builder.relpath h path)
  /\ Builder.delete_package h self filename
       (Builder.unpackage_file h self filename fs).2 = (Ok tt, fs).
Proof.
  intros path Hno Hzip Hne Hall.
  assert (Hin : path ∈ map (Builder.path_join (Builder.here h)) members).
  { destruct members as [|m members]; [congruence|].
    simpl. rewrite (Hall m) by left. left. }
  assert (E : Builder.exists_ fs path = false)
    by now apply FixtureFacts.exists_false.
  unfold Builder.unpackage_file, Builder.extract_archive. fold path.
  rewrite E, Hzip. cbn [negb].
  rewrite FixtureFacts.exists_extractall, E, (bool_decide_eq_true_2 _ Hin).
  simpl. split; [reflexivity|].
  unfold Builder.delete_package. fold path.
  rewrite FixtureFacts.extractall_lookup, decide_True by assumption.
  f_equal. apply map_eq. intros q.
  destruct (decide (q = path)) as [->|Hq].
  - now rewrite lookup_delete_eq.
  - rewrite lookup_delete_ne by congruence.
    rewrite FixtureFacts.extractall_lookup, decide_False; [reflexivity|].
    intros Hq'. apply list_elem_of_In, in_map_iff in Hq' as (m & <- & Hm).
    apply Hq, Hall. now apply list_elem_of_In.
Qed.



(** X11.  [unpackage_file] never takes a file away, whether it returns or
    raises; and once it has returned, a second call returns the same path and
    changes nothing. *)
Theorem unpackage_file_again (h : Builder.host) (self : Builder.builder)
    (filename : str) (fs : gmap str Builder.node) :
  let r := Builder.unpackage_file h self filename fs in
  (forall q, Builder.exists_ fs q = true -> Builder.exists_ r.2 q = true)
  /\ (is_Ok r.1 = true -> Builder.unpackage_file h self filename r.2 = r).
Proof.
  intros r.
  destruct (unpackage_file_cases h self filename fs) as (H1 & H2 & _).
  fold r in H1, H2. split.
  - intros q Hq. destruct H2 as [->|(_ & members & _ & ->)]; [exact Hq|].
    rewrite FixtureFacts.exists_extractall, Hq. reflexivity.
  - intros Hok. destruct H1 as [[E1 E2]|[e E]]; [|now rewrite E in Hok].
    destruct (unpackage_file_cases h self filename r.2) as (_ & _ & H3).
    rewrite (H3 E2). destruct r as [r1 r2]. simpl in *. now rewrite E1.
Qed.

Lemma unpackage_file_again_witness :
  Builder.unpackage_file suite corpus (py "sample")
    (Builder.unpackage_file suite corpus (py "sample") packed).2
  = Builder.unpackage_file suite corpus (py "sample") packed.
Proof.
  apply (proj2 (unpackage_file_again suite corpus (py "sample") packed)).
  vm_compute. reflexivity.
Defined.


(** ** Tests that use a fixture *)

Lemma fold_left_snoc {A B} (f : A -> B) (l : list A) (acc : list B) :
  fold_left (fun acc i => acc ++ [f i]) l acc = acc ++ map f l.
Proof.
  revert acc. induction l as [|a l IH]; intros acc; simpl.
  - now rewrite app_nil_r.
  - rewrite IH. now rewrite <- app_assoc.
Qed.

Lemma delete_package_present (h : Builder.host) (self : Builder.builder)
    (filename : str) (fs : gmap str Builder.node) :
  Builder.exists_ fs (Builder.target h self filename) = true ->
  Builder.delete_package h self filename fs
  = (Ok tt, delete (Builder.target h self filename) fs).
Proof.
  intros [x E]%FixtureFacts.exists_true. unfold Builder.delete_package.
  now rewrite E.
Qed.

Lemma exists_delete (fs : gmap str Builder.node) (path : str) :
  Builder.exists_ (delete path fs) path = false.
Proof. apply FixtureFacts.exists_false, lookup_delete_eq. Qed.





Lemma map_view_line (types : list (str * bool)) (acc : list str) :
  fold_left
    (fun (view_types : list str) (view_type : str * bool) =>
       if view_type.2
       then view_types
            ++ [py "BinaryViewType: " ++ view_type.1 ++ py " (deprecated)"]
       else view_types ++ [py "BinaryViewType: " ++ view_type.1])
    types acc
  = acc ++ map view_line types.
Proof.
  revert acc. induction types as [|[name dep] types IH]; intros acc; simpl.
  - now rewrite app_nil_r.
  - rewrite IH. unfold view_line. simpl.
    destruct dep; simpl; rewrite <- app_assoc; [reflexivity|].
    now rewrite app_nil_r.
Qed.




(** ** The files of the sample store *)

Lemma tree_induction (P : Walk.tree -> Prop) :
  (forall files subdirs,
      Forall (fun d => P d.2) subdirs -> P (Walk.Dir files subdirs)) ->
  forall t, P t.
Proof.
  intros H. fix IH 1. intros [files subdirs]. apply H.
  induction subdirs as [|[name sub] subdirs IHs]; constructor.
  - apply IH.
  - exact IHs.
Qed.

Lemma walk_collects (t : Walk.tree) : forall (top : str) (acc : list str),
  fold_left
    (fun all_files entry =>
       match entry with
       | (root, _, files) =>
           fold_left (fun all_files file =>
                        all_files ++ [Builder.path_join root file])
                     files all_files
       end)
    (Walk.walk top t) acc
  = acc ++ Walk.listing top t.
Proof.
  induction t as [files subdirs IH] using tree_induction. intros top acc.
  cbn [Walk.walk Walk.listing fold_left].
  rewrite (fold_left_snoc (Builder.path_join top)), app_assoc.
  generalize (acc ++ map (Builder.path_join top) files). clear acc.
  induction IH as [|[name sub] subdirs Hd _ IHs]; intros acc.
  - simpl. now rewrite app_nil_r.
  - cbn [flat_map]. rewrite fold_left_app. cbn [snd] in Hd.
    rewrite Hd, IHs. now rewrite app_assoc.
Qed.

Lemma listing_length (t : Walk.tree) : forall top : str,
  length (Walk.listing top t) = Walk.count_files t.
Proof.
  induction t as [files subdirs IH] using tree_induction. intros top.
  cbn [Walk.listing Walk.count_files].
  rewrite length_app, length_map. f_equal.
  induction IH as [|[name sub] subdirs Hd _ IHs]; [reflexivity|].
  cbn [flat_map map list_sum]. rewrite length_app. cbn [snd] in Hd.
  now rewrite Hd, IHs.
Qed.

Lemma path_join_extends (top name : str) :
  Walk.name_ok name = true ->
  exists rest, rest <> [] /\ Builder.path_join top name = top ++ rest.
Proof.
  unfold Walk.name_ok. intros [Hne Hsl]%andb_true_iff.
  apply negb_true_iff, bool_decide_eq_false in Hne.
  apply negb_true_iff in Hsl. unfold Builder.path_join.
  destruct name as [|c name]; [congruence|].
  cbn [existsb] in Hsl. apply orb_false_iff in Hsl as [Hc _].
  cbn [Py.startswith]. rewrite Hc. cbn [andb].
  destruct (bool_decide (top = []) || Py.ends_with "/" top).
  - exists (c :: name). split; [discriminate|reflexivity].
  - exists ("/" :: c :: name). split; [discriminate|reflexivity].
Qed.

Lemma listing_extends (t : Walk.tree) : forall top : str,
  Walk.names_ok t = true ->
  Forall (fun p => exists rest, rest <> [] /\ p = top ++ rest)
         (Walk.listing top t).
Proof.
  induction t as [files subdirs IH] using tree_induction. intros top.
  cbn [Walk.names_ok Walk.listing].
  intros [Hf Hs]%andb_true_iff. apply Forall_app. split.
  - apply Forall_forall. intros p (f & <- & Hin)%list_elem_of_In%in_map_iff.
    apply path_join_extends. rewrite forallb_forall in Hf. now apply Hf.
  - induction IH as [|[name sub] subdirs Hd _ IHs]; [constructor|].
    cbn [forallb] in Hs.
    apply andb_true_iff in Hs as [[Hn Hsub]%andb_true_iff Hs].
    cbn [flat_map]. apply Forall_app. split; [|now apply IHs].
    cbn [snd] in Hd.
    destruct (path_join_extends top name Hn) as (r1 & _ & E1).
    eapply Forall_impl; [apply (Hd _ Hsub)|].
    intros p (r2 & Hr2 & ->). exists (r1 ++ r2). split.
    + intros [_ ?]%app_eq_nil. contradiction.
    + rewrite E1. now rewrite app_assoc.
Qed.

(** X15.  [get_file_list] returns the empty list when the sample store
    cannot be listed.  Otherwise it returns one path for every file in the
    store and below, no more: first the files of the store itself, in the
    order of the listing, each joined to the path of the store. *)
Theorem get_file_list_counts (h : Builder.host)
    (disk : str -> option Walk.tree) (test_store_rel : str) :
  let test_store := Builder.path_join (Builder.here h) test_store_rel in
  match disk test_store with
  | None => Walk.get_file_list h disk test_store_rel = []
  | Some (Walk.Dir files subdirs) =>
      length (Walk.get_file_list h disk test_store_rel)
      = Walk.count_files (Walk.Dir files subdirs)
      /\ take (length files) (Walk.get_file_list h disk test_store_rel)
         = map (Builder.path_join test_store) files
  end.
Proof.
  intros test_store. unfold Walk.get_file_list. fold test_store.
  destruct (disk test_store) as [[files subdirs]|]; [|reflexivity].
  rewrite walk_collects. cbn [app]. split; [apply listing_length|].
  cbn [Walk.listing].
  rewrite <- (length_map (Builder.path_join test_store) files) at 1.
  now rewrite take_app_length.
Qed.

(** X16.  When no name in the sample store is empty or holds a slash, every
    path that [get_file_list] returns is the path of the store followed by a
    text that is not empty: no path lies outside the store, and none is the
    store itself. *)
Theorem get_file_list_in_store (h : Builder.host)
    (disk : str -> option Walk.tree) (test_store_rel : str) (t : Walk.tree)
    (p : str) :
  let test_store := Builder.path_join (Builder.here h) test_store_rel in
  disk test_store = Some t ->
  Walk.names_ok t = true ->
  p ∈ Walk.get_file_list h disk test_store_rel ->
  Py.startswith test_store p = true /\ p <> test_store.
Proof.
  intros test_store Hd Hok. unfold Walk.get_file_list. fold test_store.
  rewrite Hd, walk_collects. cbn [app]. intros Hp.
  pose proof (listing_extends t test_store Hok) as H.
  rewrite Forall_forall in H. destruct (H p Hp) as (rest & Hne & ->).
  split; [apply startswith_self|].
  intros E. rewrite <- (app_nil_r test_store) in E at 2.
  apply app_inv_head in E. contradiction.
Qed.

Lemma get_file_list_in_store_witness :
  Py.startswith (py "/suite/store") (py "/suite/store/elf/helloworld") = true
  /\ py "/suite/store/elf/helloworld" <> py "/suite/store".
Proof.
  apply (get_file_list_in_store suite
           (fun _ => Some (Walk.Dir [py "a.zip"]
                             [(py "elf", Walk.Dir [py "helloworld"] [])]))
           (py "store")
           (Walk.Dir [py "a.zip"] [(py "elf", Walk.Dir [py "helloworld"] [])])).
  - reflexivity.
  - vm_compute. reflexivity.
  - vm_compute. right. left.
Defined.


(** ** The representation of the ellipsis *)

Lemma replace_absent (old : N) (new s : Unicode.ustr) :
  old ∉ s -> Unicode.replace old new s = s.
Proof.
  induction s as [|c s IH]; [reflexivity|].
  intros H. apply not_elem_of_cons in H as [Hc Hs].
  unfold Unicode.replace. cbn [flat_map].
  destruct (N.eqb_spec c old) as [->|_]; [congruence|].
  fold (Unicode.replace old new s). now rewrite IH.
Qed.

Lemma replace_removes (old : N) (new s : Unicode.ustr) :
  old ∉ new -> old ∉ Unicode.replace old new s.
Proof.
  intros Hnew. induction s as [|c s IH]; [apply not_elem_of_nil|].
  unfold Unicode.replace. cbn [flat_map]. fold (Unicode.replace old new s).
  rewrite elem_of_app. intros [H|H]; [|contradiction].
  destruct (N.eqb_spec c old) as [->|Hc]; [contradiction|].
  apply elem_of_cons in H as [->|H]; [congruence|].
  now apply elem_of_nil in H.
Qed.

Lemma replace_length (old : N) (new s : Unicode.ustr) :
  length (Unicode.replace old new s) + count_occ N.eq_dec s old
  = length s + length new * count_occ N.eq_dec s old.
Proof.
  induction s as [|c s IH]; [simpl; lia|].
  unfold Unicode.replace. cbn [flat_map]. fold (Unicode.replace old new s).
  rewrite length_app. cbn [count_occ length].
  destruct (N.eqb_spec c old) as [->|Hc].
  - destruct (N.eq_dec old old); [|contradiction]. lia.
  - destruct (N.eq_dec c old); [contradiction|]. simpl. lia.
Qed.

(** X17.  [fixStrRepr]: the result holds no ellipsis; a string is returned
    as it is exactly when it holds none, so the function is idempotent; and
    every ellipsis makes the result eleven code points longer. *)
Theorem fixStrRepr_escapes (s : Unicode.ustr) :
  (Unicode.ellipsis ∉ Unicode.fixStrRepr s)
  /\ (Unicode.fixStrRepr s = s <-> (Unicode.ellipsis ∉ s))
  /\ Unicode.fixStrRepr (Unicode.fixStrRepr s) = Unicode.fixStrRepr s
  /\ length (Unicode.fixStrRepr s)
     = length s + 11 * count_occ N.eq_dec s Unicode.ellipsis.
Proof.
  assert (Hnew : Unicode.ellipsis
                 ∉ Unicode.of_str (py "\xe2\x80\xa6")).
  { intros H. vm_compute in H. repeat (apply elem_of_cons in H as [H|H];
      [discriminate|]). now apply elem_of_nil in H. }
  assert (H1 : Unicode.ellipsis ∉ Unicode.fixStrRepr s)
    by now apply replace_removes.
  split; [exact H1|]. split; [|split].
  - split; [intros <-; exact H1|apply replace_absent].
  - now apply replace_absent.
  - pose proof (replace_length Unicode.ellipsis
                  (Unicode.of_str (py "\xe2\x80\xa6")) s) as H.
    change (length (Unicode.of_str (py "\xe2\x80\xa6"))) with 12 in H.
    unfold Unicode.fixStrRepr. lia.
Qed.

(** X18.  On text in which every character is below 256, as is every string
    that the canonicalisers above are stated for, [fixStrRepr] is the
    identity. *)
Theorem fixStrRepr_latin1 (s : str) :
  Unicode.fixStrRepr (Unicode.of_str s) = Unicode.of_str s.
Proof.
  apply replace_absent. unfold Unicode.of_str.
  intros (c & E & _)%list_elem_of_In%in_map_iff.
  pose proof (N_ascii_bounded c) as H. rewrite E in H.
  vm_compute in H. discriminate.
Qed.


(** ** Addresses under the two interpreters *)

Lemma hex_digits (p : positive) : forall rest : string,
  exists h, list_ascii_of_string (HexString.Raw.of_pos p rest)
            = h ++ list_ascii_of_string rest
            /\ h <> [] /\ forallb is_lower_hex h = true.
Proof.
  revert p. fix IH 1. intros p rest.
  do 4 try destruct p as [p|p|];
    first [ eexists [_]; split; [reflexivity|]; split;
            [discriminate|reflexivity]
          | cbn [HexString.Raw.of_pos];
            match goal with
            | |- context [HexString.Raw.of_pos p (String ?c rest)] =>
                destruct (IH p (String c rest)) as (h & E & _ & Hh);
                exists (h ++ [c]); split;
                [rewrite E, <- app_assoc; reflexivity|];
                split; [now destruct h|];
                rewrite forallb_app, Hh; reflexivity
            end ].
Qed.

Lemma hex_shape (x : N) :
  exists h, py (HexString.of_N x) = py "0x" ++ h
            /\ h <> [] /\ forallb is_lower_hex h = true.
Proof.
  destruct x as [|p].
  - exists ["0"]. split; [reflexivity|]. split; [discriminate|reflexivity].
  - destruct (hex_digits p EmptyString) as (h & E & Hne & Hh).
    exists h. split; [|auto].
    unfold py, HexString.of_N, HexString.of_pos.
    cbn [list_ascii_of_string] in *. rewrite E. now rewrite app_nil_r.
Qed.

Lemma function_start_fixed (long : N -> bool) (x : N) :
  fix_str (py "Function start: " ++ BinaryViewTestBuilder.hex long x)
  = py "Function start: " ++ py (HexString.of_N x).
Proof.
  unfold BinaryViewTestBuilder.hex.
  destruct (hex_shape x) as (h & -> & Hne & Hh).
  assert (Hpre : no_L (py "Function start: ") = true) by reflexivity.
  destruct (long x).
  - rewrite <- !app_assoc.
    rewrite (fix_str_hex_guarded (py "Function start: ") h []);
      [now rewrite app_nil_r|assumption|reflexivity|assumption..|reflexivity].
  - rewrite app_nil_r. apply fix_str_no_L.
    apply (hex_body_no_L (py "Function start: ") h).
    + now apply no_L_iff.
    + now apply Forall_of_forallb.
Qed.

(** X19.  [test_function_starts] returns, and its lines do not depend on the
    interpreter: whichever addresses Python 2 holds as [long] and writes with
    an ['L'], every line is the label followed by the address as Python 3
    writes it. *)
Theorem test_function_starts_portable (long : N -> bool)
    (functions : list N) :
  BinaryViewTestBuilder.test_function_starts long functions
  = Ok (map (fun x => PStr (py "Function start: " ++ py (HexString.of_N x)))
            functions).
Proof.
  unfold BinaryViewTestBuilder.test_function_starts.
  rewrite (fold_left_snoc
             (fun x => PStr (py "Function start: "
                             ++ BinaryViewTestBuilder.hex long x))).
  cbn [app]. rewrite fixOutput_plain.
  - f_equal. rewrite map_map. apply map_ext. intros x. cbn [fix_elem].
    now rewrite function_start_fixed.
  - rewrite forallb_forall. intros v (x & <- & _)%in_map_iff. reflexivity.
Qed.
